(** * Frame-mark: timecode engine and marker ledger

    A shallow embedding of [src/app/(tabs)/index.tsx]: the timecode
    helpers ([framesToTimecode], [timecodeToFrames], [framesToSeconds],
    [secondsToFrames]), the clock handlers of the [App] component
    ([play], [stop], [reset], [adjust], [changeFps] and the animation
    loop), the marker handlers ([capture], [saveComment],
    [buildMarkersText]) and the export and summary triggers.

    Modelling conventions.
    - A JavaScript [number] is an IEEE-754 binary64 value.  Finite values
      are carried as rationals ([Q], always in lowest terms) that lie on
      the binary64 grid; every arithmetic operation computes the exact
      rational result and rounds it to nearest, ties to even ([round64]).
      The two zeros are identified.
    - Quantities the program keeps integral (frame counts, fps, marker
      ids, millisecond clock readings) are carried as [Z]; this is exact
      for magnitudes up to 2^53, the bound under which binary64 represents
      every integer.
    - A JavaScript string is carried as a Rocq [string]: one [ascii] per
      UTF-16 code unit, so the model covers strings whose code units are
      below 256. *)

From Stdlib Require Import ZArith QArith Qround Qabs Qpower Lia Lqa List Bool.
From Stdlib Require Import Sorting.Sorted Sorting.Permutation.
From Stdlib Require Import Ascii String.
From Stdlib Require Qcanon.
From Stdlib Require Import Decimal DecimalString DecimalN DecimalZ.
Import ListNotations.

Local Open Scope Z_scope.

(** ** Binary64 rounding *)

Module Float64.

Local Open Scope Q_scope.

(** Largest [k] with [2^k <= q], for [q > 0]. *)
Definition Qlog2 (q : Q) : Z :=
  let k := (Z.log2 (Qnum q) - Z.log2 (Zpos (Qden q)))%Z in
  if Qle_bool (2 ^ k) q then k else (k - 1)%Z.

(** Round to the nearest integer, ties to the even one. *)
Definition rne (x : Q) : Z :=
  let fl := Qfloor x in
  match Qcompare (x - inject_Z fl) (1 # 2) with
  | Lt => fl
  | Gt => (fl + 1)%Z
  | Eq => if Z.even fl then fl else (fl + 1)%Z
  end.

(** Exponent of the unit in the last place of the binade of [q > 0]:
    53 significant bits, subnormal grid below [2^-1022]. *)
Definition ulp_exp (q : Q) : Z := Z.max (Qlog2 q - 52) (-1074).

Definition round_pos (q : Q) : Q :=
  let e := ulp_exp q in
  Qred (inject_Z (rne (q * 2 ^ (- e))) * 2 ^ e).

(** Round-to-nearest-even onto the binary64 grid (exponent unbounded
    above; overflow is decided by the caller). *)
Definition round64 (q : Q) : Q :=
  let q := Qred q in
  match Qnum q with
  | Z0 => 0
  | Zpos _ => round_pos q
  | Zneg _ => Qred (- round_pos (- q))
  end.

End Float64.

(** ** JavaScript strings *)

Module JSString.

Local Open Scope string_scope.

(** [WhiteSpace] and [LineTerminator] code units below 256: TAB, LF, VT,
    FF, CR, SP and NBSP. *)
Definition is_ws (c : ascii) : bool :=
  let n := nat_of_ascii c in
  ((9 <=? n) && (n <=? 13) || (n =? 32) || (n =? 160))%nat.

Fixpoint trimStart (s : string) : string :=
  match s with
  | String c s' => if is_ws c then trimStart s' else s
  | EmptyString => EmptyString
  end.

Fixpoint trimEnd (s : string) : string :=
  match s with
  | EmptyString => EmptyString
  | String c s' =>
      match trimEnd s' with
      | EmptyString => if is_ws c then EmptyString else String c EmptyString
      | t => String c t
      end
  end.

Definition trim (s : string) : string := trimEnd (trimStart s).

Fixpoint replicate (n : nat) (c : ascii) : string :=
  match n with
  | O => EmptyString
  | S n' => String c (replicate n' c)
  end.

(** [s.padStart(n, c)] for a one-character filler. *)
Definition padStart (n : nat) (c : ascii) (s : string) : string :=
  replicate (n - String.length s) c ++ s.

(** [s.split(sep)] for a one-character separator. *)
Fixpoint split (sep : ascii) (s : string) : list string :=
  match s with
  | EmptyString => [EmptyString]
  | String c s' =>
      if Ascii.eqb c sep then EmptyString :: split sep s'
      else match split sep s' with
           | h :: t => String c h :: t
           | [] => [String c EmptyString]
           end
  end.

(** [l.join(sep)]. *)
Definition join (sep : string) (l : list string) : string := String.concat sep l.

(** [String(z)] and [z.toString()] for an integer [z] (below 10^21 in
    magnitude, where JavaScript prints plain decimal digits). *)
Definition toString (z : Z) : string :=
  DecimalString.NilEmpty.string_of_int (Z.to_int z).

End JSString.

(** ** JavaScript numbers *)

Module JSNumber.

Import Float64 JSString.

Inductive number : Type :=
| NaN
| Infinity (negative : bool)
| Fin (q : Q).

Definition of_Z (z : Z) : number := Fin (inject_Z z).

Definition is_zero (q : Q) : bool := (Qnum q =? 0)%Z.
Definition is_neg (q : Q) : bool := (Qnum q <? 0)%Z.

(** The number value of an exact result: nearest binary64 value, infinite
    once the rounded magnitude reaches [2^1024]. *)
Definition rnd (q : Q) : number :=
  let r := round64 q in
  if Qle_bool (inject_Z (2 ^ 1024)) (Qabs r) then Infinity (is_neg r) else Fin r.

Definition add (a b : number) : number :=
  match a, b with
  | NaN, _ | _, NaN => NaN
  | Infinity s, Infinity t => if Bool.eqb s t then Infinity s else NaN
  | Infinity s, Fin _ | Fin _, Infinity s => Infinity s
  | Fin x, Fin y => rnd (x + y)
  end.

Definition mul (a b : number) : number :=
  match a, b with
  | NaN, _ | _, NaN => NaN
  | Infinity s, Infinity t => Infinity (xorb s t)
  | Infinity s, Fin y | Fin y, Infinity s =>
      if is_zero y then NaN else Infinity (xorb s (is_neg y))
  | Fin x, Fin y => rnd (x * y)
  end.

Definition isNaN (a : number) : bool :=
  match a with NaN => true | _ => false end.

(** *** [Number(s)]: the StringToNumber conversion *)

Local Open Scope string_scope.

Definition decimalDigits (s : string) : option Z :=
  match s with
  | EmptyString => None
  | _ => option_map Z.of_uint (NilEmpty.uint_of_string s)
  end.

Definition digit (c : ascii) : option Z :=
  let n := Z.of_nat (nat_of_ascii c) in
  if ((48 <=? n) && (n <=? 57))%Z then Some (n - 48)%Z
  else if ((97 <=? n) && (n <=? 102))%Z then Some (n - 87)%Z
  else if ((65 <=? n) && (n <=? 70))%Z then Some (n - 55)%Z
  else None.

Fixpoint radixDigits_acc (base : Z) (s : string) (acc : Z) : option Z :=
  match s with
  | EmptyString => Some acc
  | String c s' =>
      match digit c with
      | Some d => if (d <? base)%Z then radixDigits_acc base s' (acc * base + d)%Z else None
      | None => None
      end
  end.

Definition radixDigits (base : Z) (s : string) : option Z :=
  match s with
  | EmptyString => None
  | _ => radixDigits_acc base s 0
  end.

(** Cut [s] at the first character satisfying [p]. *)
Fixpoint cut (p : ascii -> bool) (s : string) : string * option string :=
  match s with
  | EmptyString => (EmptyString, None)
  | String c s' =>
      if p c then (EmptyString, Some s')
      else let (a, b) := cut p s' in (String c a, b)
  end.

Definition parse_exponent (es : option string) : option Z :=
  match es with
  | None => Some 0%Z
  | Some (String "+" d) => decimalDigits d
  | Some (String "-" d) => option_map Z.opp (decimalDigits d)
  | Some d => decimalDigits d
  end.

(** Digits of the mantissa and the number of digits after the point. *)
Definition parse_mantissa (ms : string) : option (Z * Z) :=
  match cut (Ascii.eqb ".") ms with
  | (ip, None) => option_map (fun v => (v, 0%Z)) (decimalDigits ip)
  | (ip, Some fp) =>
      option_map (fun v => (v, Z.of_nat (String.length fp))) (decimalDigits (ip ++ fp))
  end.

Definition unsignedDecimal (s : string) : option Q :=
  let (ms, es) := cut (fun c => Ascii.eqb c "e" || Ascii.eqb c "E") s in
  match parse_mantissa ms, parse_exponent es with
  | Some (m, k), Some e => Some (inject_Z m * 10 ^ (e - k))%Q
  | _, _ => None
  end.

Definition strDecimalLiteral (s : string) : number :=
  let (neg, body) :=
    match s with
    | String "+" r => (false, r)
    | String "-" r => (true, r)
    | _ => (false, s)
    end in
  if String.eqb body "Infinity" then Infinity neg
  else match unsignedDecimal body with
       | Some q => rnd (if neg then - q else q)%Q
       | None => NaN
       end.

Definition radix_of_prefix (c : ascii) : option Z :=
  if Ascii.eqb c "x" || Ascii.eqb c "X" then Some 16%Z
  else if Ascii.eqb c "o" || Ascii.eqb c "O" then Some 8%Z
  else if Ascii.eqb c "b" || Ascii.eqb c "B" then Some 2%Z
  else None.

Definition nonDecimalLiteral (s : string) : option number :=
  match s with
  | String "0" (String c r) =>
      match radix_of_prefix c with
      | Some base =>
          Some match radixDigits base r with
               | Some v => rnd (inject_Z v)
               | None => NaN
               end
      | None => None
      end
  | _ => None
  end.

Definition Number (s : string) : number :=
  match trim s with
  | EmptyString => of_Z 0
  | t => match nonDecimalLiteral t with
         | Some n => n
         | None => strDecimalLiteral t
         end
  end.

End JSNumber.

(** ** Timecode helpers *)

Module Codec.

Import Float64 JSString JSNumber.

(** Finite binary64 arithmetic on rationals. *)
Definition div64 (x y : Q) : Q := round64 (x / y).
Definition mul64 (x y : Q) : Q := round64 (x * y).

(** [Math.floor] and [Math.round] (ties go up) of a finite value. *)
Definition Math_floor (x : Q) : Z := Qfloor x.
Definition Math_round (x : Q) : Z := Qfloor (x + (1 # 2)).

Definition pad2 (z : Z) : string := padStart 2 "0" (toString z).

(** [framesToTimecode], for an integer frame count and a non-zero integer
    frame rate.  [%] is the truncating remainder; [f / fps] is a binary64
    division. *)
Definition framesToTimecode (frames fps : Z) : string :=
  let f := Z.max 0 frames in
  let ff := Z.rem f fps in
  let totalSeconds := Math_floor (div64 (inject_Z f) (inject_Z fps)) in
  let ss := Z.rem totalSeconds 60 in
  let totalMinutes := Math_floor (div64 (inject_Z totalSeconds) 60) in
  let mm := Z.rem totalMinutes 60 in
  let hh := Math_floor (div64 (inject_Z totalMinutes) 60) in
  (pad2 hh ++ ":" ++ pad2 mm ++ ":" ++ pad2 ss ++ ":" ++ pad2 ff)%string.

(** [timecodeToFrames].  [p.some(isNaN)] is [existsb isNaN p]; the
    destructuring [[h, m, s, f] = p] reads the first four elements. *)
Definition timecodeToFrames (tc : string) (fps : Z) : number :=
  let p := map Number (split ":" tc) in
  if negb (List.length p =? 4)%nat || existsb isNaN p then of_Z 0
  else
    let h := nth 0 p NaN in
    let m := nth 1 p NaN in
    let s := nth 2 p NaN in
    let f := nth 3 p NaN in
    add (mul (add (add (mul h (of_Z 3600)) (mul m (of_Z 60))) s) (of_Z fps)) f.

Definition framesToSeconds (frames fps : Z) : Q :=
  div64 (inject_Z frames) (inject_Z fps).

Definition secondsToFrames (seconds : Q) (fps : Z) : Z :=
  Math_round (mul64 seconds (inject_Z fps)).

End Codec.

(** ** Markers and their ordering *)

Module Marker.

Record t : Type := mk { id : Z; frames : Z; comment : string }.

Definition with_comment (c : string) (m : t) : t := mk (id m) (frames m) c.

End Marker.

Inductive SortMode : Type := created | timecode.

Module JSArray.

(** [Array.prototype.sort(cmp)] is a stable sort: [x] goes before [y]
    when [cmp x y < 0], after it when [cmp x y > 0], and elements that
    compare equal keep their relative order.  Insertion from the right
    realises it. *)
Section Sort.
Context {A : Type} (cmp : A -> A -> Z).

Fixpoint insert (x : A) (l : list A) : list A :=
  match l with
  | [] => [x]
  | y :: l' => if (cmp x y <=? 0)%Z then x :: l else y :: insert x l'
  end.

Fixpoint sort (l : list A) : list A :=
  match l with
  | [] => []
  | x :: l' => insert x (sort l')
  end.

End Sort.

(** [l.map((x, index) => f x index)]. *)
Fixpoint mapi_from {A B : Type} (i : Z) (f : A -> Z -> B) (l : list A) : list B :=
  match l with
  | [] => []
  | x :: l' => f x i :: mapi_from (i + 1) f l'
  end.

Definition mapi {A B : Type} (f : A -> Z -> B) (l : list A) : list B :=
  mapi_from 0 f l.

End JSArray.

(** ** The [App] component: state and handlers *)

Module App.

Import JSString JSNumber Codec JSArray.

Local Open Scope string_scope.

(** The [useState] variables and the [useRef] cells of the component.
    [raf] records whether an animation-frame callback is scheduled. *)
Record State : Type := mkState {
  fps : Z;
  startTC : string;
  frames : Z;
  playing : bool;
  markers : list Marker.t;
  editing : option Marker.t;
  comment : string;
  sortMode : SortMode;
  summary : string;
  loadingSummary : bool;
  raf : bool;
  startMs : Z;
  baseFrames : Z;
  nextMarkerId : Z
}.

Definition setFps v st :=
  mkState v (startTC st) (frames st) (playing st) (markers st) (editing st)
    (comment st) (sortMode st) (summary st) (loadingSummary st) (raf st)
    (startMs st) (baseFrames st) (nextMarkerId st).
Definition setStartTC v st :=
  mkState (fps st) v (frames st) (playing st) (markers st) (editing st)
    (comment st) (sortMode st) (summary st) (loadingSummary st) (raf st)
    (startMs st) (baseFrames st) (nextMarkerId st).
Definition setFrames v st :=
  mkState (fps st) (startTC st) v (playing st) (markers st) (editing st)
    (comment st) (sortMode st) (summary st) (loadingSummary st) (raf st)
    (startMs st) (baseFrames st) (nextMarkerId st).
Definition setPlaying v st :=
  mkState (fps st) (startTC st) (frames st) v (markers st) (editing st)
    (comment st) (sortMode st) (summary st) (loadingSummary st) (raf st)
    (startMs st) (baseFrames st) (nextMarkerId st).
Definition setMarkers v st :=
  mkState (fps st) (startTC st) (frames st) (playing st) v (editing st)
    (comment st) (sortMode st) (summary st) (loadingSummary st) (raf st)
    (startMs st) (baseFrames st) (nextMarkerId st).
Definition setEditing v st :=
  mkState (fps st) (startTC st) (frames st) (playing st) (markers st) v
    (comment st) (sortMode st) (summary st) (loadingSummary st) (raf st)
    (startMs st) (baseFrames st) (nextMarkerId st).
Definition setComment v st :=
  mkState (fps st) (startTC st) (frames st) (playing st) (markers st)
    (editing st) v (sortMode st) (summary st) (loadingSummary st) (raf st)
    (startMs st) (baseFrames st) (nextMarkerId st).
Definition setSortMode v st :=
  mkState (fps st) (startTC st) (frames st) (playing st) (markers st)
    (editing st) (comment st) v (summary st) (loadingSummary st) (raf st)
    (startMs st) (baseFrames st) (nextMarkerId st).
Definition setSummary v st :=
  mkState (fps st) (startTC st) (frames st) (playing st) (markers st)
    (editing st) (comment st) (sortMode st) v (loadingSummary st) (raf st)
    (startMs st) (baseFrames st) (nextMarkerId st).
Definition setLoadingSummary v st :=
  mkState (fps st) (startTC st) (frames st) (playing st) (markers st)
    (editing st) (comment st) (sortMode st) (summary st) v (raf st)
    (startMs st) (baseFrames st) (nextMarkerId st).
Definition setRaf v st :=
  mkState (fps st) (startTC st) (frames st) (playing st) (markers st)
    (editing st) (comment st) (sortMode st) (summary st) (loadingSummary st) v
    (startMs st) (baseFrames st) (nextMarkerId st).
Definition setStartMs v st :=
  mkState (fps st) (startTC st) (frames st) (playing st) (markers st)
    (editing st) (comment st) (sortMode st) (summary st) (loadingSummary st)
    (raf st) v (baseFrames st) (nextMarkerId st).
Definition setBaseFrames v st :=
  mkState (fps st) (startTC st) (frames st) (playing st) (markers st)
    (editing st) (comment st) (sortMode st) (summary st) (loadingSummary st)
    (raf st) (startMs st) v (nextMarkerId st).
Definition setNextMarkerId v st :=
  mkState (fps st) (startTC st) (frames st) (playing st) (markers st)
    (editing st) (comment st) (sortMode st) (summary st) (loadingSummary st)
    (raf st) (startMs st) (baseFrames st) v.

(** The state variable [frames] receives the result of [timecodeToFrames]
    only for timecodes of four non-negative integer fields (the initial
    ["01:00:00:00"] and the picker's output), where the result is an
    integer; [frames_of] reads that integer. *)
Definition frames_of (n : number) : Z :=
  match n with
  | Fin q => Qfloor q
  | _ => 0
  end.

Definition initial : State :=
  mkState 24 "01:00:00:00" (frames_of (timecodeToFrames "01:00:00:00" 24))
    false [] None "" timecode "" false false 0 0 1.

(** *** Clock *)

(** The timer effect, run after a render in which [playing] or [fps]
    changed; [now] is the reading of [Date.now()]. *)
Definition timerEffect (now : Z) (st : State) : State :=
  if negb (playing st) then setRaf false st
  else setRaf true (setBaseFrames (frames st) (setStartMs now st)).

(** One run of the scheduled [loop] callback. *)
Definition loop (now : Z) (st : State) : State :=
  let elapsed := now - startMs st in
  let add := Math_floor (mul64 (div64 (inject_Z elapsed) 1000) (inject_Z (fps st))) in
  setRaf true (setFrames (baseFrames st + add) st).

Definition play (now : Z) (st : State) : State :=
  setPlaying true (setStartMs now (setBaseFrames (frames st) st)).

Definition stop (st : State) : State :=
  setRaf false (setPlaying false st).

Definition reset (st : State) : State :=
  let st := stop st in
  let f := timecodeToFrames (startTC st) (fps st) in
  setSummary "" (setMarkers [] (setFrames (frames_of f) st)).

Definition adjust (deltaSeconds : Z) (st : State) : State :=
  setFrames (Z.max 0 (frames st + deltaSeconds * fps st)) st.

Definition changeFps (newFps : Z) (st : State) : State :=
  let seconds := framesToSeconds (frames st) (fps st) in
  setFps newFps (setFrames (secondsToFrames seconds newFps) st).

(** [confirmTcModal], with the picker's four values. *)
Definition confirmTcModal (tcH tcM tcS tcF : Z) (st : State) : State :=
  let tc := pad2 tcH ++ ":" ++ pad2 tcM ++ ":" ++ pad2 tcS ++ ":" ++ pad2 tcF in
  setFrames (frames_of (timecodeToFrames tc (fps st))) (setStartTC tc st).

(** *** Markers *)

Definition capture (st : State) : State :=
  let m := Marker.mk (nextMarkerId st) (frames st) "" in
  setComment "" (setEditing (Some m)
    (setMarkers (markers st ++ [m])%list (setNextMarkerId (nextMarkerId st + 1) st))).

Definition saveComment (st : State) : State :=
  match editing st with
  | None => st
  | Some e =>
      setComment "" (setEditing None
        (setMarkers
           (map (fun m => if (Marker.id m =? Marker.id e)%Z
                          then Marker.with_comment (comment st) m else m)
                (markers st)) st))
  end.

(** The ordering shared by [buildMarkersText], [exportMarkersPdf],
    [generateSummary] and [sortedMarkers]. *)
Definition ordered (mode : SortMode) (ms : list Marker.t) : list Marker.t :=
  match mode with
  | timecode => sort (fun a b => Marker.frames a - Marker.frames b) ms
  | created => ms
  end.

Definition sortedMarkers (st : State) : list Marker.t :=
  ordered (sortMode st) (markers st).

Definition markerLine (fps : Z) (m : Marker.t) (index : Z) : string :=
  let num := padStart 2 "0" (toString (index + 1)) in
  let tc := framesToTimecode (Marker.frames m) fps in
  let c := trim (Marker.comment m) in
  trimEnd ("#" ++ num ++ " [" ++ tc ++ "] " ++ c).

Definition buildMarkersText (st : State) : string :=
  join (String "010" "") (mapi (markerLine (fps st)) (ordered (sortMode st) (markers st))).


(** *** Export and summary triggers

    The native collaborators (alerts, the file-name prompt, the file
    system, sharing, printing, the clipboard and the HTTP call) are
    recorded as a log of effects; what they answer is supplied by [Env]. *)

Inductive Platform : Type := ios | android | web.

Inductive ExportChoice : Type := Annulla | TXT | PDF | CopiaNegliAppunti.

Inductive FetchResult : Type :=
| NetworkError
| Response (candidateText errorMessage : option string).

Record Env : Type := mkEnv {
  platformOS : Platform;
  GEMINI_KEY : option string;
  documentDirectory : string;
  chosenFileName : string;
  printedUri : string;
  sharingAvailable : bool;
  exportedAt : string;
  menuChoice : ExportChoice;
  fetchResult : FetchResult
}.

(** One table row of the printed document; the fixed HTML and CSS frame
    around the fields is constant text and is not reproduced. *)
Record PdfRow : Type := mkRow { row_num : string; row_tc : string; row_cmt : string }.

Record PdfDocument : Type := mkDoc {
  doc_sort : string;
  doc_total : Z;
  doc_fps : string;
  doc_exportedAt : string;
  doc_rows : list PdfRow
}.

Inductive Effect : Type :=
| Alert (title message : string)
| ExportMenu
| AskFileName (defaultName extension : string)
| WriteAsString (uri content : string)
| CopyFile (from to : string)
| PrintToFile (doc : PdfDocument)
| ShareFile (uri : string)
| SetClipboard (text : string)
| Fetch (key prompt : string).

Fixpoint replaceAll (c : ascii) (r : string) (s : string) : string :=
  match s with
  | EmptyString => EmptyString
  | String a s' => if Ascii.eqb a c then r ++ replaceAll c r s' else String a (replaceAll c r s')
  end.

Definition esc (s : string) : string :=
  replaceAll "'" "&#039;"
    (replaceAll "034" "&quot;"
       (replaceAll ">" "&gt;"
          (replaceAll "<" "&lt;"
             (replaceAll "&" "&amp;" s)))).

Definition sortModeName (m : SortMode) : string :=
  match m with created => "created" | timecode => "timecode" end.

Definition exportMarkers (env : Env) (st : State) : State * list Effect :=
  if (List.length (markers st) =? 0)%nat then
    (st, [Alert "Export" "Nessun marker da esportare."])
  else
    let content := buildMarkersText st in
    let defaultName := "markers_" ++ toString (fps st) ++ "fps" in
    let uri := documentDirectory env ++ chosenFileName env in
    (st, [AskFileName defaultName "txt"; WriteAsString uri content; ShareFile uri]).

Definition exportMarkersPdf (env : Env) (st : State) : State * list Effect :=
  if (List.length (markers st) =? 0)%nat then
    (st, [Alert "Export" "Nessun marker da esportare."])
  else
    match platformOS env with
    | web => (st, [Alert "Export PDF" "Export PDF non supportato su web."])
    | _ =>
        let ordered := ordered (sortMode st) (markers st) in
        let rows :=
          mapi (fun m index =>
                  let num := padStart 2 "0" (toString (index + 1)) in
                  let tc := framesToTimecode (Marker.frames m) (fps st) in
                  let c := trim (Marker.comment m) in
                  mkRow ("#" ++ num) (esc tc) (esc c)) ordered in
        let doc := mkDoc (esc (sortModeName (sortMode st)))
                     (Z.of_nat (List.length ordered))
                     (esc (toString (fps st))) (esc (exportedAt env)) rows in
        let safeSort := match sortMode st with timecode => "timecode" | created => "ordine" end in
        let defaultName := "markers_" ++ toString (fps st) ++ "fps_" ++ safeSort in
        let targetUri := documentDirectory env ++ chosenFileName env in
        let shared :=
          if sharingAvailable env then [ShareFile targetUri]
          else [Alert "Export" "Sharing non disponibile su questo dispositivo."] in
        (st, ([PrintToFile doc; AskFileName defaultName "pdf";
               CopyFile (printedUri env) targetUri] ++ shared)%list)
    end.

Definition copyMarkersToClipboard (env : Env) (st : State) : State * list Effect :=
  if (List.length (markers st) =? 0)%nat then
    (st, [Alert "Export" "Nessun marker da copiare."])
  else
    let text := buildMarkersText st in
    (st, [SetClipboard text; Alert "Copiato" "Markers copiati negli appunti."]).

Definition onPressExport (env : Env) (st : State) : State * list Effect :=
  if (List.length (markers st) =? 0)%nat then
    (st, [Alert "Export" "Nessun marker da esportare."])
  else
    let (st', effs) :=
      match menuChoice env with
      | TXT => exportMarkers env st
      | PDF => exportMarkersPdf env st
      | CopiaNegliAppunti => copyMarkersToClipboard env st
      | Annulla => (st, [])
      end in
    (st', ExportMenu :: effs).

(** [a || b] on strings that may be [undefined]: the empty string is falsy. *)
Definition truthy (o : option string) : option string :=
  match o with
  | Some EmptyString | None => None
  | Some s => Some s
  end.

Definition generateSummary (env : Env) (st : State) : State * list Effect :=
  if (List.length (markers st) =? 0)%nat then
    (st, [Alert "Riepilogo" "Nessun marker disponibile."])
  else
    match truthy (GEMINI_KEY env) with
    | None =>
        (st, [Alert "Gemini API key mancante"
                "Aggiungi EXPO_PUBLIC_GEMINI_KEY nel file .env e riavvia l'app."])
    | Some key =>
        let st1 := setSummary "" (setLoadingSummary true st) in
        let ordered := ordered (sortMode st) (markers st) in
        let text :=
          join (String "010" "")
            (map (fun m => "[" ++ framesToTimecode (Marker.frames m) (fps st) ++ "] "
                           ++ Marker.comment m) ordered) in
        let prompt :=
          "Riassumi i seguenti commenti di una sessione di screening video:"
          ++ String "010" "" ++ text in
        let out :=
          match fetchResult env with
          | NetworkError => "Errore di rete durante la chiamata a Gemini."
          | Response cand err =>
              match truthy cand, truthy err with
              | Some t, _ => t
              | None, Some e => e
              | None, None => "Errore durante la generazione."
              end
          end in
        (setLoadingSummary false (setSummary out st1), [Fetch key prompt])
    end.

Inductive Trigger : Type :=
| ExportTxt | ExportPdf | CopyToClipboard | PressExport | GenerateSummary.

Definition trigger (t : Trigger) : Env -> State -> State * list Effect :=
  match t with
  | ExportTxt => exportMarkers
  | ExportPdf => exportMarkersPdf
  | CopyToClipboard => copyMarkersToClipboard
  | PressExport => onPressExport
  | GenerateSummary => generateSummary
  end.

(** *** User and scheduler events *)

Inductive Event : Type :=
| Play
| Stop
| Reset
| Adjust (deltaSeconds : Z)
| ChangeFps (newFps : Z)
| ConfirmTc (tcH tcM tcS tcF : Z)
| Capture
| TypeComment (text : string)
| SaveComment
| SelectSort (mode : SortMode)
| AnimationFrame.

(** The handler of each event.  The frame-rate pills are disabled while
    playing, and a scheduled callback runs only while [raf] is set. *)
Definition handle (now : Z) (e : Event) (st : State) : State :=
  match e with
  | Play => play now st
  | Stop => stop st
  | Reset => reset st
  | Adjust d => adjust d st
  | ChangeFps v => if playing st then st else changeFps v st
  | ConfirmTc h m s f => confirmTcModal h m s f st
  | Capture => capture st
  | TypeComment text => setComment text st
  | SaveComment => saveComment st
  | SelectSort mode => setSortMode mode st
  | AnimationFrame => if raf st then loop now st else st
  end.

(** A handler followed by the re-render: the timer effect runs again
    when [playing] or [fps] changed. *)
Definition step (st : State) (ev : Z * Event) : State :=
  let (now, e) := ev in
  let st' := handle now e st in
  if negb (Bool.eqb (playing st') (playing st)) || negb (fps st' =? fps st)%Z
  then timerEffect now st' else st'.

Definition run (tr : list (Z * Event)) (st : State) : State :=
  fold_left step tr st.

End App.

(** ** Reference statements

    Definitions that follow the wording of the specification, and the
    scenarios it describes; the theorems below compare the code with
    them. *)

Module Reference.

Import JSString JSNumber Codec JSArray App.

(** A field is numeric when [Number] converts it to something other
    than NaN. *)
Definition numeric (field : string) : bool := negb (isNaN (Number field)).

(** Decoding as the specification words it: exactly four numeric fields
    [hh:mm:ss:ff] give [(hh*3600 + mm*60 + ss) * fps + ff]; anything else
    gives [0]. *)
Definition decode_spec (tc : string) (fps : Z) : number :=
  match split ":" tc with
  | [hh; mm; ss; ff] =>
      if numeric hh && numeric mm && numeric ss && numeric ff
      then add (mul (add (add (mul (Number hh) (of_Z 3600)) (mul (Number mm) (of_Z 60)))
                         (Number ss)) (of_Z fps)) (Number ff)
      else of_Z 0
  | _ => of_Z 0
  end.

(** Successive runs of the scheduled [loop] callback, at the given clock
    readings. *)
Definition loops (ts : list Z) (st : State) : State :=
  fold_left (fun s now => loop now s) ts st.

(** The frames added by [loop] after [elapsed] milliseconds. *)
Definition advance (fps elapsed : Z) : Z :=
  Math_floor (mul64 (div64 (inject_Z elapsed) 1000) (inject_Z fps)).

Definition zrange (lo : Z) (n : nat) : list Z :=
  map (fun i => lo + Z.of_nat i) (seq 0 n).

(** Within one frame of [fps * 10], checked for one frame rate and one
    elapsed time. *)
Definition drift_ok (fps elapsed : Z) : bool :=
  Z.abs (advance fps elapsed - fps * 10) <=? 1.


(** The order relation of a listing by timecode. *)
Definition frames_le (a b : Marker.t) : Prop := Marker.frames a <= Marker.frames b.

Definition at_frame (v : Z) (m : Marker.t) : bool := Marker.frames m =? v.

(** The export line of the marker at 1-based [position], as the
    specification words it. *)
Definition spec_line (fps : Z) (position : nat) (m : Marker.t) : string :=
  trimEnd ("#" ++ padStart 2 "0" (toString (Z.of_nat position))
           ++ " [" ++ framesToTimecode (Marker.frames m) fps ++ "] "
           ++ trim (Marker.comment m))%string.

Definition spec_lines (fps : Z) (ms : list Marker.t) : list string :=
  map (fun pm => spec_line fps (fst pm) (snd pm)) (combine (seq 1 (List.length ms)) ms).

Definition ends_with_ws (s : string) : bool :=
  match String.length s with
  | O => false
  | S n => match String.get n s with Some c => is_ws c | None => false end
  end.

(** Captures taken one after the other, at the given clock positions. *)
Definition captures (positions : list Z) (st : State) : State :=
  fold_left (fun s f => capture (setFrames f s)) positions st.

Definition ids (st : State) : list Z := map Marker.id (markers st).

(** The ids handed out along a trace of events, in the order of issue. *)
Definition issued_by (e : Event) (st : State) : list Z :=
  match e with
  | Capture => [nextMarkerId st]
  | _ => []
  end.

Fixpoint issued (tr : list (Z * Event)) (st : State) : list Z :=
  match tr with
  | [] => []
  | ev :: tr' => issued_by (snd ev) st ++ issued tr' (step st ev)
  end.

End Reference.

(** ** The start-timecode picker *)

Module Picker.

Import JSString JSNumber Codec App.

(** [onMomentumScrollEnd] and [onScrollEndDrag] of [Wheel]: the item
    nearest to the scroll offset [raw], kept inside [0 .. count - 1]. *)
Definition wheelIndex (raw : Q) (itemHeight count : Z) : Z :=
  let idx := Math_round (div64 raw (inject_Z itemHeight)) in
  Z.max 0 (Z.min (count - 1) idx).

(** The offset [Wheel] scrolls to when [value] changes. *)
Definition wheelOffset (value itemHeight count : Z) : Z :=
  Z.max 0 (Z.min (count - 1) value) * itemHeight.

(** The picker's state variables. *)
Record TcPicker : Type := mkPicker {
  tcH : number;
  tcM : number;
  tcS : number;
  tcF : number;
  tcModalOpen : bool
}.

(** [openTcModal]: the wheels take the fields of the start timecode when
    it has exactly four fields and none is NaN. *)
Definition openTcModal (startTC : string) (p : TcPicker) : TcPicker :=
  let q := map Number (split ":" startTC) in
  if (List.length q =? 4)%nat && forallb (fun x => negb (isNaN x)) q
  then mkPicker (nth 0 q NaN) (nth 1 q NaN) (nth 2 q NaN) (nth 3 q NaN) true
  else mkPicker (tcH p) (tcM p) (tcS p) (tcF p) true.

(** The start timecode written by [confirmTcModal]. *)
Definition pickedTimecode (h m s f : Z) : string :=
  (pad2 h ++ ":" ++ pad2 m ++ ":" ++ pad2 s ++ ":" ++ pad2 f)%string.

End Picker.

(** ** The file-name prompt *)

Module FileName.

Import JSString.

Local Open Scope string_scope.

Inductive Extension : Type := txt | pdf.

Definition extName (e : Extension) : string :=
  match e with txt => "txt" | pdf => "pdf" end.

(** The modal's state variables; [nameResolve] tells whether
    [nameResolveRef.current] holds a resolver. *)
Record NameModal : Type := mkName {
  nameModalVisible : bool;
  nameDraft : string;
  nameDefault : string;
  nameExt : Extension;
  nameResolve : bool
}.

(** [askFileName] outside iOS: open the modal and keep the resolver. *)
Definition askFileName (defaultName : string) (extension : Extension)
  (m : NameModal) : NameModal :=
  mkName true "" defaultName extension true.

Definition setNameDraft (text : string) (m : NameModal) : NameModal :=
  mkName (nameModalVisible m) text (nameDefault m) (nameExt m) (nameResolve m).

(** [confirmNameModal] and [cancelNameModal]: the new state and the name
    handed to the resolver, if there is one. *)
Definition confirmNameModal (m : NameModal) : NameModal * option string :=
  let n := trim (nameDraft m) in
  let finalName :=
    (if (0 <? String.length n)%nat then n else nameDefault m) ++ "." ++ extName (nameExt m) in
  (mkName false (nameDraft m) (nameDefault m) (nameExt m) false,
   if nameResolve m then Some finalName else None).

Definition cancelNameModal (m : NameModal) : NameModal * option string :=
  let finalName := nameDefault m ++ "." ++ extName (nameExt m) in
  (mkName false (nameDraft m) (nameDefault m) (nameExt m) false,
   if nameResolve m then Some finalName else None).

(** The two buttons of the iOS prompt; [value] is what the prompt passes,
    possibly [undefined]. *)
Definition promptAnnulla (defaultName : string) (extension : Extension) : string :=
  defaultName ++ "." ++ extName extension.

Definition promptOK (value : option string) (defaultName : string)
  (extension : Extension) : string :=
  match option_map trim value with
  | Some (String c r) => String c r ++ "." ++ extName extension
  | _ => defaultName ++ "." ++ extName extension
  end.

End FileName.

(** ** Traces a user can produce *)

Module Traces.

Import App Reference.

(** What the controls allow: the picker's wheels give small non-negative
    values and the frame-rate pills give 24, 25 or 30. *)
Definition allowed (e : Event) : Prop :=
  match e with
  | ConfirmTc h m s f =>
      0 <= h < 24 /\ 0 <= m < 60 /\ 0 <= s < 60 /\ 0 <= f < 30
  | ChangeFps v => v = 24 \/ v = 25 \/ v = 30
  | _ => True
  end.

(** Events in the order of a clock that does not run backwards. *)
Fixpoint timed (t : Z) (tr : list (Z * Event)) : Prop :=
  match tr with
  | [] => True
  | (now, e) :: tr' => t <= now /\ allowed e /\ timed now tr'
  end.

(** A start timecode as the picker writes it. *)
Definition validStart (tc : string) : Prop :=
  exists h m s f,
    tc = Picker.pickedTimecode h m s f /\
    0 <= h < 24 /\ 0 <= m < 60 /\ 0 <= s < 60 /\ 0 <= f < 30.

(** What holds of the clock at time [t] along such traces. *)
Definition wellFormed (t : Z) (st : State) : Prop :=
  0 <= frames st /\ 0 <= baseFrames st /\
  (raf st = true -> startMs st <= t) /\
  (fps st = 24 \/ fps st = 25 \/ fps st = 30) /\
  validStart (startTC st) /\
  Forall (fun m => 0 <= Marker.frames m) (markers st).

(** What holds of the ledger: ids strictly increasing, from 1 and below
    the counter. *)
Definition ledger_ok (st : State) : Prop :=
  StronglySorted Z.lt (ids st) /\
  Forall (fun i => 1 <= i < nextMarkerId st) (ids st).

(** Animation-frame callbacks at the given instants. *)
Definition frameEvents (ts : list Z) : list (Z * Event) :=
  map (fun t => (t, AnimationFrame)) ts.

(** Pressing a marker row opens it for editing. *)
Definition pressMarker (m : Marker.t) (st : State) : State :=
  setComment (Marker.comment m) (setEditing (Some m) st).

End Traces.

(** ** Escaped text *)

Module Markup.

Import App.

Local Open Scope string_scope.

(** The characters [esc] replaces. *)
Definition special (c : ascii) : bool :=
  Ascii.eqb c "&" || Ascii.eqb c "<" || Ascii.eqb c ">" || Ascii.eqb c "034"
  || Ascii.eqb c "'".

(** No character of [s] opens or closes a tag or an attribute value. *)
Definition markup_free (s : string) : bool :=
  forallb (fun c => negb (Ascii.eqb c "<" || Ascii.eqb c ">" || Ascii.eqb c "034"
                          || Ascii.eqb c "'"))
          (list_ascii_of_string s).

Definition plain (s : string) : bool :=
  forallb (fun c => negb (special c)) (list_ascii_of_string s).

(** Reading the five entities back. *)
Fixpoint unesc (s : string) : string :=
  match s with
  | String "&" (String "a" (String "m" (String "p" (String ";" r)))) =>
      String "&" (unesc r)
  | String "&" (String "l" (String "t" (String ";" r))) => String "<" (unesc r)
  | String "&" (String "g" (String "t" (String ";" r))) => String ">" (unesc r)
  | String "&" (String "q" (String "u" (String "o" (String "t" (String ";" r))))) =>
      String "034" (unesc r)
  | String "&" (String "#" (String "0" (String "3" (String "9" (String ";" r))))) =>
      String "'" (unesc r)
  | String c r => String c (unesc r)
  | EmptyString => EmptyString
  end.

End Markup.

(** * Properties *)

(** ** Facts about binary64 rounding *)

Module Float64Facts.
Import Float64.
Local Open Scope Q_scope.

Lemma two_pow_pos (k : Z) : 0 < 2 ^ k.
Proof. apply Qpower_0_lt. reflexivity. Qed.

Lemma two_pow_succ (k : Z) : 2 ^ (k + 1) == 2 * 2 ^ k.
Proof.
  rewrite Qpower_plus by discriminate.
  change (2 ^ 1) with 2. ring.
Qed.

Lemma two_pow_inv (k : Z) : 2 ^ k * 2 ^ (- k) == 1.
Proof.
  rewrite <- Qpower_plus by discriminate.
  rewrite Z.add_opp_diag_r. reflexivity.
Qed.

Lemma two_pow_Z (k : Z) : (0 <= k)%Z -> 2 ^ k == inject_Z (2 ^ k).
Proof. intros Hk. rewrite Zpower_Qpower by assumption. reflexivity. Qed.

Lemma two_pow_le (a b : Z) : (a <= b)%Z -> 2 ^ a <= 2 ^ b.
Proof. intros H. apply Qpower_le_compat_l; [assumption | discriminate]. Qed.

Lemma two_pow_lt_inv (a b : Z) : 2 ^ a < 2 ^ b -> (a < b)%Z.
Proof.
  intros H. destruct (Z_lt_le_dec a b) as [Hl | Hg]; [assumption | exfalso].
  apply two_pow_le in Hg. lra.
Qed.

Lemma Qlog2_spec (q : Q) :
  0 < q -> 2 ^ Qlog2 q <= q /\ q < 2 ^ (Qlog2 q + 1).
Proof.
  intros Hq. destruct q as [n d]. unfold Qlog2. cbn [Qnum Qden].
  assert (Hn : (0 < n)%Z) by (unfold Qlt in Hq; cbn in Hq; lia).
  destruct (Z.log2_spec n Hn) as [Hn1 Hn2].
  destruct (Z.log2_spec (Zpos d) (Pos2Z.is_pos d)) as [Hd1 Hd2].
  set (a := Z.log2 n) in *. set (b := Z.log2 (Zpos d)) in *.
  assert (Ha : (0 <= a)%Z) by apply Z.log2_nonneg.
  assert (Hb : (0 <= b)%Z) by apply Z.log2_nonneg.
  rewrite Z.pow_succ_r in Hn2, Hd2 by assumption.
  rewrite Zle_Qle in Hn1, Hd1. rewrite Zlt_Qlt in Hn2, Hd2.
  rewrite inject_Z_mult in Hn2, Hd2.
  rewrite <- two_pow_Z in Hn1, Hn2, Hd1, Hd2 by assumption.
  change (inject_Z 2) with 2 in *.
  pose proof (two_pow_pos a) as HA. pose proof (two_pow_pos b) as HB.
  assert (Hk : 2 ^ (a - b) * 2 ^ b == 2 ^ a).
  { rewrite <- Qpower_plus by discriminate. now replace (a - b + b)%Z with a by lia. }
  pose proof (two_pow_pos (a - b)) as HK.
  assert (Hqd : (n # d) * inject_Z (Zpos d) == inject_Z n).
  { rewrite (Qmake_Qdiv n d). field. discriminate. }
  assert (Hdp : 0 < inject_Z (Zpos d)) by reflexivity.
  set (x := n # d) in *. set (qn := inject_Z n) in *.
  set (qd := inject_Z (Zpos d)) in *.
  set (A := 2 ^ a) in *. set (B := 2 ^ b) in *. set (K := 2 ^ (a - b)) in *.
  assert (Hup : x < 2 * K).
  { apply Qnot_le_lt. intros Hc. nra. }
  assert (Hlo : K < 2 * x).
  { apply Qnot_le_lt. intros Hc. nra. }
  destruct (Qle_bool K x) eqn:E.
  - apply Qle_bool_iff in E. split; [assumption |].
    rewrite two_pow_succ. exact Hup.
  - assert (Hlt : x < K).
    { apply Qnot_le_lt. intros Hc. apply Qle_bool_iff in Hc. congruence. }
    replace (a - b - 1 + 1)%Z with (a - b)%Z by lia.
    split; [| exact Hlt].
    assert (Hs : 2 * 2 ^ (a - b - 1) == K).
    { unfold K. rewrite <- two_pow_succ. now replace (a - b - 1 + 1)%Z with (a - b)%Z by lia. }
    lra.
Qed.


Lemma rne_comp (x y : Q) : x == y -> rne x = rne y.
Proof.
  intros E. unfold rne. rewrite (Qfloor_comp _ _ E).
  assert (E' : x - inject_Z (Qfloor y) == y - inject_Z (Qfloor y)) by (rewrite E; reflexivity).
  rewrite (Qcompare_comp _ _ E' _ _ (Qeq_refl (1 # 2))). reflexivity.
Qed.

Lemma rne_Z (z : Z) : rne (inject_Z z) = z.
Proof.
  unfold rne. rewrite Qfloor_Z.
  assert (E : inject_Z z - inject_Z z == 0) by ring.
  rewrite (Qcompare_comp _ _ E _ _ (Qeq_refl (1 # 2))). reflexivity.
Qed.

Lemma rne_error (x : Q) :
  x - (1 # 2) <= inject_Z (rne x) /\ inject_Z (rne x) <= x + (1 # 2).
Proof.
  unfold rne. pose proof (Qfloor_le x) as Hl. pose proof (Qlt_floor x) as Hu.
  rewrite inject_Z_plus in Hu. change (inject_Z 1) with 1 in Hu.
  set (fl := Qfloor x) in *.
  destruct (Qcompare (x - inject_Z fl) (1 # 2)) eqn:C.
  - apply Qeq_alt in C. destruct (Z.even fl);
      rewrite ?inject_Z_plus; change (inject_Z 1) with 1; lra.
  - apply Qlt_alt in C. lra.
  - apply Qgt_alt in C. rewrite inject_Z_plus. change (inject_Z 1) with 1. lra.
Qed.

(** The rounded value is within half a unit in the last place. *)
Lemma round_pos_error (q : Q) :
  let e := ulp_exp q in
  q - 2 ^ e * (1 # 2) <= round_pos q /\ round_pos q <= q + 2 ^ e * (1 # 2).
Proof.
  intros e. unfold round_pos. fold e. rewrite Qred_correct.
  destruct (rne_error (q * 2 ^ (- e))) as [H1 H2].
  pose proof (two_pow_pos e) as He. pose proof (two_pow_inv e) as Hi.
  pose proof (two_pow_pos (- e)) as He'.
  set (m := inject_Z (rne (q * 2 ^ (- e)))) in *.
  set (P := 2 ^ e) in *. set (P' := 2 ^ (- e)) in *.
  assert (Hq : q == q * P' * P) by (rewrite <- Qmult_assoc, (Qmult_comm P'), Hi; ring).
  split.
  - rewrite Hq at 1. nra.
  - rewrite Hq at 1. nra.
Qed.

(** Relative error of at most [2^-53] in the normal range. *)
Lemma round_pos_rel_error (q : Q) :
  0 < q -> 2 ^ (-1022) <= q ->
  q - q * 2 ^ (-53) <= round_pos q /\ round_pos q <= q + q * 2 ^ (-53).
Proof.
  intros Hq Hn. destruct (Qlog2_spec q Hq) as [Hl _].
  assert (Hlg : (-1022 <= Qlog2 q)%Z).
  { destruct (Z_lt_le_dec (Qlog2 q) (-1022)) as [Hc | Hc]; [exfalso | assumption].
    destruct (Qlog2_spec q Hq) as [_ Hu].
    assert (2 ^ (Qlog2 q + 1) <= 2 ^ (-1022)) by (apply two_pow_le; lia). lra. }
  pose proof (round_pos_error q) as He. cbv zeta in He.
  assert (Hu : ulp_exp q = (Qlog2 q - 52)%Z) by (unfold ulp_exp; lia).
  rewrite Hu in He.
  assert (Hs : 2 ^ (Qlog2 q - 52) * (1 # 2) == 2 ^ Qlog2 q * 2 ^ (-53)).
  { replace (Qlog2 q - 52)%Z with (Qlog2 q + -53 + 1)%Z by lia.
    rewrite two_pow_succ, Qpower_plus by discriminate. ring. }
  rewrite Hs in He.
  assert (0 < 2 ^ (-53)) by apply two_pow_pos.
  set (t := 2 ^ (-53)) in *. set (L := 2 ^ Qlog2 q) in *.
  destruct He as [He1 He2]. split; nra.
Qed.


Lemma round64_comp (x y : Q) : x == y -> round64 x = round64 y.
Proof. intros E. unfold round64. now rewrite (Qred_complete _ _ E). Qed.

Lemma Qred_Z (z : Z) : Qred (inject_Z z) = inject_Z z.
Proof. apply Qcanon.Qred_identity. cbn. apply Z.gcd_1_r. Qed.

Lemma round_pos_Z (z : Z) :
  (0 < z <= 2 ^ 53)%Z -> round_pos (inject_Z z) = inject_Z z.
Proof.
  intros [Hz Hb]. destruct (Z.eq_dec z (2 ^ 53)) as [-> | Hne].
  { vm_compute. reflexivity. }
  assert (Hq : 0 < inject_Z z) by (change 0 with (inject_Z 0); rewrite <- Zlt_Qlt; assumption).
  destruct (Qlog2_spec _ Hq) as [Hl _].
  assert (Hlg : (Qlog2 (inject_Z z) < 53)%Z).
  { apply two_pow_lt_inv. eapply Qle_lt_trans; [exact Hl |].
    rewrite (two_pow_Z 53) by lia. rewrite <- Zlt_Qlt. lia. }
  unfold round_pos. set (e := ulp_exp (inject_Z z)).
  assert (He : (e <= 0)%Z) by (unfold e, ulp_exp; lia).
  assert (E : inject_Z z * 2 ^ (- e) == inject_Z (z * 2 ^ (- e))).
  { rewrite inject_Z_mult, (two_pow_Z (- e)) by lia. reflexivity. }
  rewrite (rne_comp _ _ E), rne_Z.
  transitivity (Qred (inject_Z z)); [apply Qred_complete | apply Qred_Z].
  rewrite inject_Z_mult, <- (two_pow_Z (- e)) by lia.
  rewrite <- Qmult_assoc, (Qmult_comm (2 ^ (- e))), two_pow_inv. ring.
Qed.

(** Integers of magnitude at most [2^53] are binary64 values. *)
Lemma round64_Z (z : Z) :
  (Z.abs z <= 2 ^ 53)%Z -> round64 (inject_Z z) = inject_Z z.
Proof.
  intros Hb. unfold round64. rewrite Qred_Z. destruct z as [| p | p].
  - reflexivity.
  - change (round_pos (inject_Z (Zpos p)) = inject_Z (Zpos p)).
    apply round_pos_Z. lia.
  - change (Qred (- round_pos (inject_Z (Zpos p))) = inject_Z (Zneg p)).
    rewrite round_pos_Z by lia. apply Qred_Z.
Qed.

Lemma round64_pos (q : Q) : 0 < q -> round64 q = round_pos (Qred q).
Proof.
  intros Hq. unfold round64.
  assert (H : 0 < Qred q) by (rewrite Qred_correct; assumption).
  destruct (Qred q) as [n d]. unfold Qlt in H. cbn in *.
  destruct n; [lia | reflexivity | lia].
Qed.

Lemma round64_rel_error (q : Q) :
  0 < q -> 2 ^ (-1022) <= q ->
  q - q * 2 ^ (-53) <= round64 q /\ round64 q <= q + q * 2 ^ (-53).
Proof.
  intros Hq Hn. rewrite (round64_pos q Hq).
  pose proof (Qred_correct q) as E.
  destruct (round_pos_rel_error (Qred q)) as [H1 H2]; rewrite ?E; try assumption.
  assert (E2 : Qred q * 2 ^ (-53) == q * 2 ^ (-53)) by (rewrite E; reflexivity).
  set (t := 2 ^ (-53)) in *. split; lra.
Qed.

End Float64Facts.

(** ** Exactness of the integer paths *)

Module CodecFacts.

Import Float64 Float64Facts JSString JSNumber Codec.
Local Open Scope Q_scope.

Lemma Qfloor_between (q : Q) (n : Z) :
  inject_Z n <= q -> q < inject_Z (n + 1) -> Qfloor q = n.
Proof.
  intros Hl Hu.
  pose proof (Qfloor_le q) as H1. pose proof (Qlt_floor q) as H2.
  assert (inject_Z (Qfloor q) < inject_Z (n + 1)) as H3 by lra.
  assert (inject_Z n < inject_Z (Qfloor q + 1)) as H4 by lra.
  rewrite <- Zlt_Qlt in H3, H4. lia.
Qed.

Lemma two_pow_53 : 2 ^ 53 * 2 ^ (-53) == 1.
Proof. apply (two_pow_inv 53). Qed.

Lemma tiny_le_normal : 2 ^ (-1022) <= 2 ^ (-53).
Proof. apply two_pow_le. lia. Qed.

(** [Math.floor(a / b)] is the integer quotient although the division
    is rounded. *)
Lemma floor_div64 (a b : Z) :
  (0 <= a)%Z -> (0 < b)%Z -> (a + b <= 2 ^ 53)%Z ->
  Math_floor (div64 (inject_Z a) (inject_Z b)) = (a / b)%Z.
Proof.
  intros Ha Hb Hab. unfold Math_floor, div64.
  pose proof (Z.div_mod a b ltac:(lia)) as Hdm.
  pose proof (Z.mod_pos_bound a b Hb) as Hr.
  set (n := (a / b)%Z) in *. set (r := (a mod b)%Z) in *.
  assert (Hn : (0 <= n)%Z) by (apply Z.div_pos; lia).
  assert (Hqb : 0 < inject_Z b) by (change 0 with (inject_Z 0); rewrite <- Zlt_Qlt; lia).
  assert (Hx : inject_Z a / inject_Z b * inject_Z b == inject_Z a) by (field; lra).
  assert (Ha' : inject_Z a == inject_Z b * inject_Z n + inject_Z r).
  { rewrite <- inject_Z_mult, <- inject_Z_plus. now rewrite <- Hdm. }
  destruct (Z.eq_dec r 0) as [Hr0 | Hr0].
  - assert (E : inject_Z a / inject_Z b == inject_Z n).
    { rewrite Ha', Hr0. change (inject_Z 0) with 0. field. lra. }
    rewrite (round64_comp _ _ E), round64_Z, Qfloor_Z; [reflexivity |].
    assert (n <= a)%Z by nia. lia.
  - assert (Hr1 : 1 <= inject_Z r) by (change 1 with (inject_Z 1); rewrite <- Zle_Qle; lia).
    assert (Hr2 : inject_Z r <= inject_Z b - 1).
    { change 1 with (inject_Z 1). unfold Qminus. rewrite <- inject_Z_opp, <- inject_Z_plus, <- Zle_Qle. lia. }
    assert (Hlim : inject_Z a + inject_Z b <= 2 ^ 53).
    { rewrite (two_pow_Z 53) by lia. rewrite <- inject_Z_plus, <- Zle_Qle. exact Hab. }
    assert (Ha0 : 0 <= inject_Z a) by (change 0 with (inject_Z 0); rewrite <- Zle_Qle; lia).
    assert (Hn0 : 0 <= inject_Z n) by (change 0 with (inject_Z 0); rewrite <- Zle_Qle; lia).
    pose proof two_pow_53 as Hu. pose proof (two_pow_pos (-53)) as Hu0.
    pose proof (two_pow_pos 53) as HU0. pose proof tiny_le_normal as Ht.
    set (x := inject_Z a / inject_Z b) in *.
    set (qa := inject_Z a) in *. set (qb := inject_Z b) in *.
    set (qn := inject_Z n) in *. set (qr := inject_Z r) in *.
    set (u := 2 ^ (-53)) in *. set (U := 2 ^ 53) in *.
    assert (Hxpos : 0 < x) by (apply Qnot_le_lt; intros Hc; nra).
    assert (Hxb : u <= x).
    { apply Qnot_lt_le. intros Hc.
      assert (x * qb < u * qb) by nra. assert (u * qb < u * U) by nra. nra. }
    destruct (round64_rel_error x Hxpos ltac:(lra)) as [H1 H2]. fold u in H1, H2.
    set (x1 := round64 x) in *.
    assert (Hw : x * u * qb < 1).
    { setoid_replace (x * u * qb) with (qa * u) by (rewrite <- Hx; ring). nra. }
    apply Qfloor_between.
    + apply Qnot_lt_le. intros Hc. fold qn in Hc.
      assert (x1 * qb < qn * qb) by nra. nra.
    + rewrite inject_Z_plus. fold qn. change (inject_Z 1) with 1.
      apply Qnot_le_lt. intros Hc.
      assert ((qn + 1) * qb <= x1 * qb) by nra. nra.
Qed.


(** *** Exact integer arithmetic on [number] *)

Lemma rnd_Z (z : Z) : (Z.abs z <= 2 ^ 53)%Z -> rnd (inject_Z z) = of_Z z.
Proof.
  intros Hz. unfold rnd. rewrite round64_Z by assumption.
  destruct (Qle_bool (inject_Z (2 ^ 1024)) (Qabs (inject_Z z))) eqn:E; [exfalso | reflexivity].
  apply Qle_bool_iff in E. change (Qabs (inject_Z z)) with (inject_Z (Z.abs z)) in E.
  rewrite <- Zle_Qle in E.
  pose proof (Z.pow_lt_mono_r 2 53 1024 ltac:(lia) ltac:(lia) ltac:(lia)). lia.
Qed.

Lemma mul_Z (a b : Z) :
  (Z.abs (a * b) <= 2 ^ 53)%Z -> mul (of_Z a) (of_Z b) = of_Z (a * b).
Proof. intros H. cbn [mul of_Z]. rewrite <- inject_Z_mult. now apply rnd_Z. Qed.

Lemma add_Z (a b : Z) :
  (Z.abs (a + b) <= 2 ^ 53)%Z -> add (of_Z a) (of_Z b) = of_Z (a + b).
Proof. intros H. cbn [add of_Z]. rewrite <- inject_Z_plus. now apply rnd_Z. Qed.

(** *** Decimal digit strings *)

Local Open Scope string_scope.

Import NilEmpty.

Lemma trimStart_digits d : trimStart (string_of_uint d) = string_of_uint d.
Proof. destruct d; reflexivity. Qed.

Lemma trimEnd_digits d : trimEnd (string_of_uint d) = string_of_uint d.
Proof.
  induction d; cbn [string_of_uint trimEnd]; try reflexivity;
    rewrite IHd; destruct (string_of_uint d); reflexivity.
Qed.

Lemma trim_digits d : trim (string_of_uint d) = string_of_uint d.
Proof. unfold trim. now rewrite trimStart_digits, trimEnd_digits. Qed.

Lemma cut_digits (p : ascii -> bool) d :
  (forall c, (48 <= nat_of_ascii c <= 57)%nat -> p c = false) ->
  cut p (string_of_uint d) = (string_of_uint d, None).
Proof.
  intros Hp. induction d; cbn [string_of_uint cut]; try reflexivity;
    rewrite Hp by (cbn; lia); rewrite IHd; reflexivity.
Qed.

Lemma nonDecimalLiteral_digits d : nonDecimalLiteral (string_of_uint d) = None.
Proof. destruct d as [| d | | | | | | | | |]; try reflexivity. destruct d; reflexivity. Qed.

Lemma Number_digits d :
  d <> Nil -> (Z.of_uint d <= 2 ^ 53)%Z -> Number (string_of_uint d) = of_Z (Z.of_uint d).
Proof.
  intros Hd Hb. unfold Number. rewrite trim_digits.
  assert (Hne : string_of_uint d <> "") by (destruct d; [congruence | discriminate ..]).
  assert (Hnum : match nonDecimalLiteral (string_of_uint d) with
                 | Some n => n
                 | None => strDecimalLiteral (string_of_uint d)
                 end = of_Z (Z.of_uint d)).
  { rewrite nonDecimalLiteral_digits. unfold strDecimalLiteral.
    assert (Hsign : match string_of_uint d with
                    | String "+" r => (false, r)
                    | String "-" r => (true, r)
                    | _ => (false, string_of_uint d)
                    end = (false, string_of_uint d)) by (destruct d; reflexivity).
    rewrite Hsign.
    assert (Hinf : (string_of_uint d =? "Infinity") = false) by (destruct d; reflexivity).
    rewrite Hinf. unfold unsignedDecimal, parse_mantissa.
    rewrite cut_digits by (intros c Hc; destruct c as [[] [] [] [] [] [] [] []]; cbn in Hc; try lia; reflexivity).
    rewrite cut_digits by (intros c Hc; destruct c as [[] [] [] [] [] [] [] []]; cbn in Hc; try lia; reflexivity).
    unfold decimalDigits. rewrite usu.
    destruct (string_of_uint d) eqn:Es; [congruence |]. cbn [option_map parse_exponent].
    replace (0 - 0)%Z with 0%Z by reflexivity.
    assert (E : (inject_Z (Z.of_uint d) * 10 ^ 0 == inject_Z (Z.of_uint d))%Q).
    { change ((10 : Q) ^ 0)%Q with 1%Q. ring. }
    unfold rnd. rewrite (round64_comp _ _ E). apply rnd_Z.
    pose proof (N2Z.is_nonneg (Pos.of_uint d)). unfold Z.of_uint in *. lia. }
  destruct (string_of_uint d); [congruence | exact Hnum].
Qed.


Lemma split_digits_sep d (rest : string) :
  split ":" (string_of_uint d ++ String ":" rest) = string_of_uint d :: split ":" rest.
Proof.
  induction d; cbn [string_of_uint append split Ascii.eqb Bool.eqb];
    try reflexivity; rewrite IHd; reflexivity.
Qed.

Lemma split_digits d : split ":" (string_of_uint d) = [string_of_uint d].
Proof.
  induction d; cbn [string_of_uint split Ascii.eqb Bool.eqb];
    try reflexivity; rewrite IHd; reflexivity.
Qed.

Lemma replicate_zero_digits (k : nat) d :
  replicate k "0" ++ string_of_uint d = string_of_uint (Nat.iter k D0 d).
Proof. induction k; cbn; [reflexivity | now rewrite IHk]. Qed.

Lemma of_uint_zeros (k : nat) d : Z.of_uint (Nat.iter k D0 d) = Z.of_uint d.
Proof. induction k; [reflexivity | exact IHk]. Qed.

(** A zero-padded non-negative integer is a non-empty digit string
    denoting that integer. *)
Lemma pad2_digits (z : Z) :
  (0 <= z)%Z -> exists d, pad2 z = string_of_uint d /\ Z.of_uint d = z /\ d <> Nil.
Proof.
  intros Hz. unfold pad2, padStart, toString.
  assert (Hd : exists d, Z.to_int z = Pos d /\ Z.of_uint d = z /\ d <> Nil).
  { pose proof (DecimalZ.of_to z) as Hof. destruct z as [| p | p]; [| | lia].
    - exists (D0 Nil). repeat split. discriminate.
    - exists (Pos.to_uint p). repeat split; [exact Hof |].
      intros Hn. cbn in Hof. rewrite Hn in Hof. discriminate. }
  destruct Hd as (d & -> & Hv & Hn). cbn [string_of_int].
  rewrite replicate_zero_digits. eexists. split; [reflexivity |].
  split; [now rewrite of_uint_zeros |].
  destruct (2 - String.length (string_of_uint d))%nat; cbn; [assumption | discriminate].
Qed.

Lemma Number_pad2 (z : Z) :
  (0 <= z <= 2 ^ 53)%Z -> Number (pad2 z) = of_Z z.
Proof.
  intros [Hz Hb]. destruct (pad2_digits z Hz) as (d & -> & Hv & Hn).
  rewrite Number_digits by (rewrite ?Hv; assumption). now rewrite Hv.
Qed.

Lemma split_fields (a b c d : Z) :
  (0 <= a)%Z -> (0 <= b)%Z -> (0 <= c)%Z -> (0 <= d)%Z ->
  split ":" (pad2 a ++ ":" ++ pad2 b ++ ":" ++ pad2 c ++ ":" ++ pad2 d)
  = [pad2 a; pad2 b; pad2 c; pad2 d].
Proof.
  intros Ha Hb Hc Hd.
  destruct (pad2_digits a Ha) as (da & -> & _).
  destruct (pad2_digits b Hb) as (db & -> & _).
  destruct (pad2_digits c Hc) as (dc & -> & _).
  destruct (pad2_digits d Hd) as (dd & -> & _).
  repeat match goal with
         | |- context [":" ++ ?x] => change (":" ++ x) with (String ":" x)
         end.
  now rewrite !split_digits_sep, split_digits.
Qed.

(** Decoding four zero-padded fields is exact integer arithmetic. *)
Lemma timecodeToFrames_fields (h m s f fps : Z) :
  (0 <= h)%Z -> (0 <= m)%Z -> (0 <= s)%Z -> (0 <= f)%Z -> (0 <= fps)%Z ->
  (h * 3600 + m * 60 + s <= 2 ^ 53)%Z ->
  ((h * 3600 + m * 60 + s) * fps + f <= 2 ^ 53)%Z ->
  timecodeToFrames (pad2 h ++ ":" ++ pad2 m ++ ":" ++ pad2 s ++ ":" ++ pad2 f) fps
  = of_Z ((h * 3600 + m * 60 + s) * fps + f).
Proof.
  intros Hh Hm Hs Hf Hfps Hb1 Hb2. unfold timecodeToFrames.
  rewrite split_fields by assumption. cbn [map].
  rewrite !Number_pad2 by lia.
  cbn [List.length Nat.eqb negb orb existsb isNaN of_Z nth].
  change (Fin (inject_Z ?z)) with (of_Z z).
  rewrite !mul_Z by lia. rewrite !add_Z by lia.
  rewrite mul_Z by nia. rewrite add_Z by nia. reflexivity.
Qed.

End CodecFacts.

(** ** The timecode codec *)

Module RoundTrip.

Import Float64 Float64Facts JSString JSNumber Codec CodecFacts.
Local Open Scope Z_scope.
Local Open Scope string_scope.

(** The four fields computed by [framesToTimecode], in exact arithmetic. *)
Lemma framesToTimecode_fields (f fps : Z) :
  0 <= f < 2 ^ 52 -> 0 < fps < 2 ^ 52 ->
  framesToTimecode f fps
  = pad2 (f / fps / 60 / 60) ++ ":" ++ pad2 ((f / fps / 60) mod 60) ++ ":"
    ++ pad2 ((f / fps) mod 60) ++ ":" ++ pad2 (f mod fps).
Proof.
  intros Hf Hfps. unfold framesToTimecode.
  assert (H52 : 2 ^ 53 = 2 * 2 ^ 52) by reflexivity.
  assert (H60 : 60 < 2 ^ 52) by reflexivity.
  rewrite Z.max_r by lia.
  rewrite (floor_div64 f fps) by lia.
  assert (Hts : 0 <= f / fps <= f).
  { split; [apply Z.div_pos; lia | apply Z.div_le_upper_bound; nia]. }
  change (60%Q) with (inject_Z 60).
  rewrite (floor_div64 (f / fps) 60) by lia.
  assert (Htm : 0 <= f / fps / 60 <= f).
  { split; [apply Z.div_pos; lia | apply Z.div_le_upper_bound; lia]. }
  rewrite (floor_div64 (f / fps / 60) 60) by lia.
  rewrite !Z.rem_mod_nonneg by lia. reflexivity.
Qed.

Lemma timecode_round_trip_gen (f fps : Z) :
  0 <= f < 2 ^ 52 -> 0 < fps < 2 ^ 52 ->
  timecodeToFrames (framesToTimecode f fps) fps = of_Z f.
Proof.
  intros Hf Hfps. rewrite framesToTimecode_fields by assumption.
  assert (H52 : 2 ^ 53 = 2 * 2 ^ 52) by reflexivity.
  set (ts := f / fps). set (tm := ts / 60).
  pose proof (Z.div_mod f fps ltac:(lia)) as E1.
  pose proof (Z.div_mod ts 60 ltac:(lia)) as E2.
  pose proof (Z.div_mod tm 60 ltac:(lia)) as E3.
  pose proof (Z.mod_pos_bound f fps ltac:(lia)) as B1.
  pose proof (Z.mod_pos_bound ts 60 ltac:(lia)) as B2.
  pose proof (Z.mod_pos_bound tm 60 ltac:(lia)) as B3.
  fold ts in E1. fold tm in E2.
  assert (Hts : 0 <= ts) by (apply Z.div_pos; lia).
  assert (Htm : 0 <= tm) by (apply Z.div_pos; lia).
  assert (Hhh : 0 <= tm / 60) by (apply Z.div_pos; lia).
  assert (Esec : tm / 60 * 3600 + tm mod 60 * 60 + ts mod 60 = ts) by lia.
  assert (Ets : ts <= f) by nia.
  rewrite timecodeToFrames_fields by (rewrite ?Esec; lia).
  f_equal. rewrite Esec. lia.
Qed.

(** C1. Round trip of the timecode codec: for fps 24, 25 or 30 and every
    frame count [f] with [0 <= f < fps*86400*24], decoding the encoding
    of [f] gives [f] back. *)
Theorem timecode_round_trip (f fps : Z) :
  fps = 24 \/ fps = 25 \/ fps = 30 ->
  0 <= f < fps * 86400 * 24 ->
  timecodeToFrames (framesToTimecode f fps) fps = of_Z f.
Proof.
  intros Hfps Hf. apply timecode_round_trip_gen.
  - assert (62208000 < 2 ^ 52) by reflexivity. lia.
  - assert (30 < 2 ^ 52) by reflexivity. lia.
Qed.

Lemma timecode_round_trip_witness :
  timecodeToFrames (framesToTimecode 62207999 30) 30 = of_Z 62207999.
Proof.
  apply (timecode_round_trip 62207999 30).
  - right. right. reflexivity.
  - lia.
Defined.

End RoundTrip.

(** ** Decoding arbitrary strings *)

Module Decode.

Import Float64 JSString JSNumber Codec CodecFacts Reference.
Local Open Scope Z_scope.
Local Open Scope string_scope.

(** C5. Lenient decode fallback: for every string [tc] and every [fps]
    (positive or not), [timecodeToFrames] is a total function returning a
    number, never a failure; it returns [0] unless splitting [tc] on [":"]
    yields exactly four numeric fields [hh, mm, ss, ff], and then it
    returns [(hh*3600 + mm*60 + ss) * fps + ff]. *)
Theorem timecodeToFrames_lenient (tc : string) (fps : Z) :
  timecodeToFrames tc fps = decode_spec tc fps.
Proof.
  unfold timecodeToFrames, decode_spec, numeric.
  destruct (split ":" tc) as [| hh [| mm [| ss [| ff [| x l]]]]]; try reflexivity.
  cbn [map List.length Nat.eqb negb orb existsb nth].
  destruct (Number hh), (Number mm), (Number ss), (Number ff); reflexivity.
Qed.

Lemma negative_hour_fields :
  map Number (split ":" "-1:00:00:00") = [of_Z (-1); of_Z 0; of_Z 0; of_Z 0].
Proof. vm_compute. reflexivity. Qed.

(** C10. No range restriction in decoding: an empty field counts as [0],
    a fractional field is kept as a fraction, and a negative field gives a
    negative frame count: ["-1:00:00:00"] decodes to [-3600 * fps], not
    to [0]. *)
Theorem timecodeToFrames_unclamped :
  timecodeToFrames "1::0:0" 24 = of_Z 86400 /\
  timecodeToFrames "0:0:0:0.5" 24 = Fin (1 # 2) /\
  timecodeToFrames "-1:00:00:00" 24 = of_Z (-86400) /\
  forall fps : Z, 0 < fps <= 2 ^ 40 ->
    timecodeToFrames "-1:00:00:00" fps = of_Z (-3600 * fps).
Proof.
  split; [vm_compute; reflexivity |].
  split; [vm_compute; reflexivity |].
  split; [vm_compute; reflexivity |].
  intros fps Hfps. unfold timecodeToFrames. rewrite negative_hour_fields.
  cbn [List.length Nat.eqb negb orb existsb isNaN of_Z nth].
  change (Fin (inject_Z ?z)) with (of_Z z).
  assert (H : 3600 * 2 ^ 40 <= 2 ^ 53) by (vm_compute; discriminate).
  rewrite !mul_Z by (vm_compute; discriminate).
  rewrite !add_Z by (vm_compute; discriminate).
  rewrite mul_Z by lia. rewrite add_Z by lia. f_equal. lia.
Qed.

Lemma timecodeToFrames_unclamped_witness :
  timecodeToFrames "-1:00:00:00" 30 = of_Z (-3600 * 30).
Proof.
  destruct timecodeToFrames_unclamped as (_ & _ & _ & H).
  apply (H 30). lia.
Defined.

End Decode.

(** ** Rounded products: the clock's arithmetic *)

Module ClockArith.

Import Float64 Float64Facts Codec CodecFacts.
Local Open Scope Q_scope.

Lemma inject_Z_pos (z : Z) : (0 < z)%Z -> 0 < inject_Z z.
Proof. intros H. change 0 with (inject_Z 0). now rewrite <- Zlt_Qlt. Qed.

Lemma round64_0 (q : Q) : q == 0 -> round64 q = 0.
Proof. intros E. rewrite (round64_comp _ _ E). reflexivity. Qed.

(** Two roundings in a row stay within a relative [3 * 2^-53] of the
    exact value [f * b / a]. *)
Lemma scaled_product_error (f a b : Z) :
  (0 < f)%Z -> (0 < a <= 2 ^ 50)%Z -> (0 < b)%Z -> (f * b <= 2 ^ 50)%Z ->
  let v := inject_Z f / inject_Z a * inject_Z b in
  let y := mul64 (div64 (inject_Z f) (inject_Z a)) (inject_Z b) in
  v - 3 * 2 ^ (-53) * v <= y /\ y <= v + 3 * 2 ^ (-53) * v.
Proof.
  intros Hf Ha Hb Hfb v y. unfold mul64, div64 in y.
  pose proof (inject_Z_pos f Hf) as Hqf. pose proof (inject_Z_pos a (proj1 Ha)) as Hqa.
  pose proof (inject_Z_pos b Hb) as Hqb.
  assert (Hqa50 : inject_Z a <= 2 ^ 50).
  { rewrite (two_pow_Z 50) by lia. rewrite <- Zle_Qle. lia. }
  assert (Hq1 : 1 <= inject_Z f) by (change 1 with (inject_Z 1); rewrite <- Zle_Qle; lia).
  assert (Hq1b : 1 <= inject_Z b) by (change 1 with (inject_Z 1); rewrite <- Zle_Qle; lia).
  assert (Hx : inject_Z f / inject_Z a * inject_Z a == inject_Z f) by (field; lra).
  assert (H50 : 2 ^ 50 * 2 ^ (-50) == 1) by apply (two_pow_inv 50).
  assert (Ht : 2 ^ (-1022) * 2 <= 2 ^ (-50)).
  { rewrite Qmult_comm, <- two_pow_succ. apply two_pow_le. lia. }
  assert (Hu8 : 2 ^ (-53) * 8 == 2 ^ (-50)).
  { change 8 with (2 ^ 3). rewrite <- Qpower_plus by discriminate. reflexivity. }
  assert (Hw1 : 2 ^ (-50) <= 1) by (apply (two_pow_le (-50) 0); lia).
  pose proof (two_pow_pos (-53)) as Hu0. pose proof (two_pow_pos (-50)) as Hv0.
  pose proof (two_pow_pos (-1022)) as Ht0. pose proof (two_pow_pos 50) as HU0.
  set (x := inject_Z f / inject_Z a) in *.
  set (qf := inject_Z f) in *. set (qa := inject_Z a) in *. set (qb := inject_Z b) in *.
  set (u := 2 ^ (-53)) in *. set (t := 2 ^ (-1022)) in *.
  set (U := 2 ^ 50) in *. set (w := 2 ^ (-50)) in *.
  assert (Hxpos : 0 < x) by (apply Qnot_le_lt; intros Hc; nra).
  assert (Hxw : w <= x).
  { apply Qnot_lt_le. intros Hc. assert (x * qa < w * U) by nra. nra. }
  destruct (round64_rel_error x Hxpos ltac:(fold t; lra)) as [H1 H2]. fold u in H1, H2.
  set (x1 := round64 x) in *.
  assert (Hu1 : u <= 1 # 8) by lra.
  assert (Hx1 : x * (1 # 2) <= x1) by nra.
  assert (Hypos : 0 < x1 * qb) by nra.
  assert (Hyt : t <= x1 * qb) by nra.
  destruct (round64_rel_error (x1 * qb) Hypos ltac:(fold t; lra)) as [H3 H4].
  fold u in H3, H4. fold y in H3, H4. unfold v.
  assert (Hxb : 0 < x * qb) by nra.
  set (z := x * qb) in *. set (z1 := x1 * qb) in *.
  assert (Hz1 : z - z * u <= z1) by (unfold z, z1; nra).
  assert (Hz2 : z1 <= z + z * u) by (unfold z, z1; nra).
  assert (Huu : z * u * u <= z * u) by nra.
  assert (Hzu : 0 <= z * u) by nra.
  split; nra.
Qed.


(** The same bound, scaled by [a]: the rounded product times [a] is
    within [3/8] of the integer [f * b]. *)
Lemma scaled_product_window (f a b : Z) :
  (0 <= f)%Z -> (0 < a <= 2 ^ 50)%Z -> (0 < b)%Z -> (f * b <= 2 ^ 50)%Z ->
  let y := mul64 (div64 (inject_Z f) (inject_Z a)) (inject_Z b) in
  inject_Z (f * b) - (3 # 8) <= y * inject_Z a /\
  y * inject_Z a <= inject_Z (f * b) + (3 # 8).
Proof.
  intros Hf Ha Hb Hfb y.
  destruct (Z.eq_dec f 0) as [-> | Hf0].
  { unfold y, mul64, div64.
    rewrite (round64_0 (inject_Z 0 / inject_Z a)) by (unfold Qdiv; ring).
    rewrite (round64_0 (0 * inject_Z b)) by ring.
    change (inject_Z (0 * b)) with 0. split; lra. }
  destruct (scaled_product_error f a b ltac:(lia) Ha Hb Hfb) as [Hlo Hhi].
  cbv zeta in Hlo, Hhi. fold y in Hlo, Hhi.
  pose proof (inject_Z_pos a (proj1 Ha)) as Hqa.
  assert (Hx : inject_Z f / inject_Z a * inject_Z a == inject_Z f) by (field; lra).
  rewrite inject_Z_mult.
  assert (HP : inject_Z f * inject_Z b <= 2 ^ 50).
  { rewrite (two_pow_Z 50) by lia. rewrite <- inject_Z_mult, <- Zle_Qle. exact Hfb. }
  assert (HP0 : 0 < inject_Z f * inject_Z b).
  { rewrite <- inject_Z_mult. apply inject_Z_pos. nia. }
  assert (Hu8 : 2 ^ (-53) * 8 * 2 ^ 50 == 1).
  { change 8 with (2 ^ 3). rewrite <- !Qpower_plus by discriminate. reflexivity. }
  pose proof (two_pow_pos (-53)) as Hu0. pose proof (two_pow_pos 50) as HU0.
  set (x := inject_Z f / inject_Z a) in *.
  set (qf := inject_Z f) in *. set (qa := inject_Z a) in *. set (qb := inject_Z b) in *.
  set (u := 2 ^ (-53)) in *. set (U := 2 ^ 50) in *.
  assert (Hv : x * qb * qa == qf * qb) by (rewrite <- Hx; ring).
  set (P := qf * qb) in *. set (v := x * qb) in *.
  assert (HuP : u * P * 8 <= 1) by nra.
  split.
  - apply Qle_trans with ((v - 3 * u * v) * qa); [| nra].
    setoid_replace ((v - 3 * u * v) * qa) with (P - 3 * (u * P)) by (rewrite <- Hv; ring).
    lra.
  - apply Qle_trans with ((v + 3 * u * v) * qa); [nra |].
    setoid_replace ((v + 3 * u * v) * qa) with (P + 3 * (u * P)) by (rewrite <- Hv; ring).
    lra.
Qed.

Section Quotients.
Variables f a b : Z.
Hypothesis Hf : (0 <= f)%Z.
Hypothesis Ha : (0 < a <= 2 ^ 50)%Z.
Hypothesis Hb : (0 < b)%Z.
Hypothesis Hfb : (f * b <= 2 ^ 50)%Z.

Let y : Q := mul64 (div64 (inject_Z f) (inject_Z a)) (inject_Z b).

Lemma scale_le (n : Z) (c : Q) :
  inject_Z n * inject_Z a <= (y + c) * inject_Z a -> inject_Z n <= y + c.
Proof.
  intros Hn. pose proof (inject_Z_pos a (proj1 Ha)) as Hqa.
  apply Qnot_lt_le. intros Hc. nra.
Qed.

Lemma scale_lt (n : Z) (c : Q) :
  (y + c) * inject_Z a < inject_Z n * inject_Z a -> y + c < inject_Z n.
Proof.
  intros Hn. pose proof (inject_Z_pos a (proj1 Ha)) as Hqa.
  apply Qnot_le_lt. intros Hc. nra.
Qed.

(** [Math.floor((f / a) * b)] against the exact quotient [f * b / a]:
    equal, or one below when [a] divides [f * b] and the rounded product
    falls just short of the integer. *)
Lemma floor_scaled_product :
  let k := Math_floor y in
  let K := (f * b / a)%Z in
  k = K \/ (((f * b) mod a)%Z = 0%Z /\ k = (K - 1)%Z).
Proof.
  intros k K. unfold k, Math_floor.
  destruct (scaled_product_window f a b Hf Ha Hb Hfb) as [Hlo Hhi].
  cbv zeta in Hlo, Hhi. fold y in Hlo, Hhi.
  pose proof (Z.div_mod (f * b) a ltac:(lia)) as Hdm.
  pose proof (Z.mod_pos_bound (f * b) a ltac:(lia)) as Hr.
  fold K in Hdm. set (r := ((f * b) mod a)%Z) in *.
  assert (HP : inject_Z (f * b) == inject_Z a * inject_Z K + inject_Z r).
  { rewrite <- inject_Z_mult, <- inject_Z_plus. now rewrite <- Hdm. }
  assert (Hqa1 : 1 <= inject_Z a) by (change 1 with (inject_Z 1); rewrite <- Zle_Qle; lia).
  assert (Hr0 : 0 <= inject_Z r) by (change 0 with (inject_Z 0); rewrite <- Zle_Qle; lia).
  assert (Hr2 : inject_Z r <= inject_Z a - 1).
  { change 1 with (inject_Z 1). unfold Qminus.
    rewrite <- inject_Z_opp, <- inject_Z_plus, <- Zle_Qle. lia. }
  assert (E0 : y == y + 0) by ring.
  set (qa := inject_Z a) in *. set (qK := inject_Z K) in *. set (qr := inject_Z r) in *.
  set (P := inject_Z (f * b)) in *. set (ya := y * qa) in *.
  assert (Hexp : (y + 0) * qa == ya) by (unfold ya; ring).
  destruct (Z.eq_dec r 0) as [Hz | Hnz].
  - assert (Hqr : qr == 0) by (unfold qr; now rewrite Hz).
    destruct (Qlt_le_dec y qK) as [Hc | Hc].
    + right. split; [exact Hz |]. apply Qfloor_between.
      * rewrite E0. apply scale_le. fold qa. rewrite Hexp.
        unfold Zminus. rewrite inject_Z_plus, inject_Z_opp. fold qK.
        change (inject_Z 1) with 1. nra.
      * now replace (K - 1 + 1)%Z with K by lia.
    + left. apply Qfloor_between; [exact Hc |].
      rewrite E0. apply scale_lt. fold qa. rewrite Hexp, inject_Z_plus. fold qK.
      change (inject_Z 1) with 1. nra.
  - assert (Hr1 : 1 <= qr) by (change 1 with (inject_Z 1); unfold qr; rewrite <- Zle_Qle; lia).
    left. apply Qfloor_between.
    + rewrite E0. apply scale_le. fold qa qK. rewrite Hexp. nra.
    + rewrite E0. apply scale_lt. fold qa. rewrite Hexp, inject_Z_plus. fold qK.
      change (inject_Z 1) with 1. nra.
Qed.

(** [Math.round((f / a) * b)] against the exact quotient [f * b / a]:
    it is the exact rounding (ties up) except possibly at a tie, where
    the rounded product may fall just below the half. *)
Lemma round_scaled_product :
  let k := Math_round y in
  let K := ((2 * f * b + a) / (2 * a))%Z in
  k = K \/ (((2 * f * b + a) mod (2 * a))%Z = 0%Z /\ k = (K - 1)%Z).
Proof.
  intros k K. unfold k, Math_round.
  destruct (scaled_product_window f a b Hf Ha Hb Hfb) as [Hlo Hhi].
  cbv zeta in Hlo, Hhi. fold y in Hlo, Hhi.
  pose proof (Z.div_mod (2 * f * b + a) (2 * a) ltac:(lia)) as Hdm.
  pose proof (Z.mod_pos_bound (2 * f * b + a) (2 * a) ltac:(lia)) as Hr.
  fold K in Hdm. set (r := ((2 * f * b + a) mod (2 * a))%Z) in *.
  assert (HP : 2 * inject_Z (f * b) + inject_Z a
               == 2 * inject_Z a * inject_Z K + inject_Z r).
  { change 2 with (inject_Z 2).
    rewrite <- !inject_Z_mult, <- !inject_Z_plus. rewrite inject_Z_injective. lia. }
  assert (Hqa1 : 1 <= inject_Z a) by (change 1 with (inject_Z 1); rewrite <- Zle_Qle; lia).
  assert (Hr0 : 0 <= inject_Z r) by (change 0 with (inject_Z 0); rewrite <- Zle_Qle; lia).
  assert (Hr2 : inject_Z r <= 2 * inject_Z a - 1).
  { change 2 with (inject_Z 2). change 1 with (inject_Z 1). unfold Qminus.
    rewrite <- inject_Z_mult, <- inject_Z_opp, <- inject_Z_plus, <- Zle_Qle. lia. }
  set (qa := inject_Z a) in *. set (qK := inject_Z K) in *. set (qr := inject_Z r) in *.
  set (P := inject_Z (f * b)) in *. set (ya := y * qa) in *.
  assert (Hexp : (y + (1 # 2)) * qa == ya + (1 # 2) * qa) by (unfold ya; ring).
  destruct (Z.eq_dec r 0) as [Hz | Hnz].
  - assert (Hqr : qr == 0) by (unfold qr; now rewrite Hz).
    destruct (Qlt_le_dec (y + (1 # 2)) qK) as [Hc | Hc].
    + right. split; [exact Hz |]. apply Qfloor_between.
      * apply scale_le. fold qa. rewrite Hexp.
        unfold Zminus. rewrite inject_Z_plus, inject_Z_opp. fold qK.
        change (inject_Z 1) with 1. nra.
      * now replace (K - 1 + 1)%Z with K by lia.
    + left. apply Qfloor_between; [exact Hc |].
      apply scale_lt. fold qa. rewrite Hexp, inject_Z_plus. fold qK.
      change (inject_Z 1) with 1. nra.
  - assert (Hr1 : 1 <= qr) by (change 1 with (inject_Z 1); unfold qr; rewrite <- Zle_Qle; lia).
    left. apply Qfloor_between.
    + apply scale_le. fold qa qK. rewrite Hexp. nra.
    + apply scale_lt. fold qa. rewrite Hexp, inject_Z_plus. fold qK.
      change (inject_Z 1) with 1. nra.
Qed.

End Quotients.

End ClockArith.

(** ** The clock *)

Module Clock.

Import Float64 Float64Facts JSString JSNumber Codec CodecFacts ClockArith App Reference.
Local Open Scope Z_scope.

(** The picker's start timecode is decoded to an integer frame count:
    [frames_of] loses nothing there. *)
Lemma confirmTcModal_frames (h m s f : Z) (st : State) :
  0 <= h -> 0 <= m -> 0 <= s -> 0 <= f -> 0 <= fps st ->
  (h * 3600 + m * 60 + s) * fps st + f <= 2 ^ 53 ->
  h * 3600 + m * 60 + s <= 2 ^ 53 ->
  frames (confirmTcModal h m s f st) = (h * 3600 + m * 60 + s) * fps st + f.
Proof.
  intros Hh Hm Hs Hf Hfps Hb1 Hb2. unfold confirmTcModal.
  cbn [frames setFrames setStartTC fps].
  rewrite timecodeToFrames_fields by assumption. apply Qfloor_Z.
Qed.

Lemma loop_frames (now : Z) (st : State) :
  frames (loop now st) = baseFrames st + advance (fps st) (now - startMs st).
Proof. reflexivity. Qed.

Lemma loops_baseline (ts : list Z) (st : State) :
  baseFrames (loops ts st) = baseFrames st /\
  startMs (loops ts st) = startMs st /\
  fps (loops ts st) = fps st.
Proof.
  revert st. induction ts as [| t ts IH]; intros st; [now repeat split |].
  change (loops (t :: ts) st) with (loops ts (loop t st)).
  destruct (IH (loop t st)) as (-> & -> & ->). now repeat split.
Qed.

(** Whatever callbacks ran before, the position after the last one
    depends only on its own clock reading. *)
Lemma loops_last (ts : list Z) (T : Z) (st : State) :
  frames (loops (ts ++ [T]) st)
  = baseFrames st + advance (fps st) (T - startMs st).
Proof.
  unfold loops. rewrite fold_left_app. cbn [fold_left]. rewrite loop_frames.
  fold (loops ts st). now destruct (loops_baseline ts st) as (-> & -> & ->).
Qed.

Lemma zrange_In (lo : Z) (n : nat) (z : Z) :
  lo <= z < lo + Z.of_nat n -> In z (zrange lo n).
Proof.
  intros H. unfold zrange. apply in_map_iff. exists (Z.to_nat (z - lo)).
  split; [lia | apply in_seq; lia].
Qed.

Lemma drift_table :
  forallb (fun fps => forallb (drift_ok fps) (zrange 9980 41)) (zrange 1 50) = true.
Proof. vm_compute. reflexivity. Qed.

Lemma drift_bound (fps elapsed : Z) :
  1 <= fps <= 50 -> 9980 <= elapsed <= 10020 ->
  Z.abs (advance fps elapsed - fps * 10) <= 1.
Proof.
  intros Hfps He. pose proof drift_table as Ht.
  rewrite forallb_forall in Ht. specialize (Ht fps (zrange_In 1 50 fps ltac:(lia))).
  rewrite forallb_forall in Ht. specialize (Ht elapsed (zrange_In 9980 41 elapsed ltac:(lia))).
  unfold drift_ok in Ht. now apply Z.leb_le in Ht.
Qed.

(** The frames added by [loop] never lag the exact count
    [elapsed * fps / 1000] by a whole frame or more, and never lead it. *)
Lemma advance_exact (fps elapsed : Z) :
  0 < fps -> 0 <= elapsed -> elapsed * fps <= 2 ^ 50 ->
  advance fps elapsed = elapsed * fps / 1000 \/
  ((elapsed * fps) mod 1000 = 0 /\ advance fps elapsed = elapsed * fps / 1000 - 1).
Proof.
  intros Hfps He Hb.
  assert (H1000 : 0 < 1000 <= 2 ^ 50) by (split; [lia | vm_compute; discriminate]).
  exact (floor_scaled_product elapsed 1000 fps He H1000 Hfps Hb).
Qed.

(** C2. Drift-free playback: start playing at frame 0 at time [t0]; run
    the loop callback at arbitrary instants [ts] and a last time at [T].
    The position is recomputed from the baseline:
    [baseFrames + floor((T - startMs) / 1000 * fps)], whatever [ts] was,
    which is the exact frame count of the elapsed time or, at an exact
    frame boundary only, possibly one less.  If the last callback falls
    within 20 ms of [t0 + 10000] and the frame rate is at most 50 (24, 25
    and 30 are offered), the position is within one frame of [fps * 10]. *)
Theorem playback_drift_free (st : State) (t0 T : Z) (ts : list Z) :
  let started := timerEffect t0 (play t0 (setFrames 0 st)) in
  let final := loops (ts ++ [T]) started in
  let elapsed := T - t0 in
  playing started = true /\ baseFrames started = 0 /\ startMs started = t0 /\
  frames final
  = baseFrames started
    + Math_floor (mul64 (div64 (inject_Z (T - startMs started)) 1000)
                        (inject_Z (fps st))) /\
  (0 < fps st -> 0 <= elapsed -> elapsed * fps st <= 2 ^ 50 ->
   frames final = elapsed * fps st / 1000 \/
   ((elapsed * fps st) mod 1000 = 0 /\ frames final = elapsed * fps st / 1000 - 1)) /\
  (1 <= fps st <= 50 -> 9980 <= elapsed <= 10020 ->
   Z.abs (frames final - fps st * 10) <= 1).
Proof.
  intros started final elapsed.
  assert (Hs : playing started = true /\ baseFrames started = 0 /\
               startMs started = t0 /\ fps started = fps st) by now repeat split.
  destruct Hs as (Hp & Hb & Hm & Hf).
  assert (Hfin : frames final = advance (fps st) elapsed).
  { unfold final, elapsed. rewrite loops_last, Hb, Hm, Hf. lia. }
  split; [exact Hp |]. split; [exact Hb |]. split; [exact Hm |].
  split; [rewrite Hfin, Hb, Hm; reflexivity |].
  split.
  - intros Hfps He Hbound. rewrite Hfin. now apply advance_exact.
  - intros Hfps HT. rewrite Hfin. now apply drift_bound.
Qed.

Lemma playback_drift_free_witness :
  let started := timerEffect 500 (play 500 (setFrames 0 initial)) in
  let final := loops ([513; 531; 542; 9000] ++ [10493]) started in
  (frames final = (10493 - 500) * 24 / 1000 \/
   (((10493 - 500) * 24) mod 1000 = 0 /\ frames final = (10493 - 500) * 24 / 1000 - 1)) /\
  Z.abs (frames final - 24 * 10) <= 1.
Proof.
  pose proof (playback_drift_free initial 500 10493 [513; 531; 542; 9000]) as H.
  cbv zeta in H. destruct H as (_ & _ & _ & _ & Hexact & Hbound).
  split.
  - apply Hexact; [reflexivity | discriminate | vm_compute; discriminate].
  - apply Hbound; [split; discriminate | split; discriminate].
Defined.

(** C3 (the code departs from it). [adjust] sets the position to
    [max 0 (frames + deltaSeconds * fps)] in either state but leaves the
    baseline untouched, so while playing the next loop callback recomputes
    the position from the old baseline and the adjustment is lost: playing
    from frame 0 at 24 fps, one second in the position is 24; [adjust 5]
    makes it 144; the callback 15 ms later puts it back to 24. *)
Theorem adjust_lost_on_next_frame :
  (forall d st,
     frames (adjust d st) = Z.max 0 (frames st + d * fps st) /\
     baseFrames (adjust d st) = baseFrames st /\
     startMs (adjust d st) = startMs st /\
     playing (adjust d st) = playing st) /\
  (forall d now st, frames (loop now (adjust d st)) = frames (loop now st)) /\
  let st := run [(0, ConfirmTc 0 0 0 0); (0, Play); (1000, AnimationFrame)] initial in
  playing st = true /\ frames st = 24 /\
  frames (run [(1001, Adjust 5)] st) = 144 /\
  frames (run [(1001, Adjust 5); (1016, AnimationFrame)] st) = 24.
Proof.
  split; [intros d st; now repeat split |].
  split; [intros d now st; reflexivity |].
  vm_compute. now repeat split.
Qed.

(** Rounded intermediate results are visible at exact ties and at exact
    frame boundaries: 98 frames at 24 fps are 122.5 frames at 30 fps and
    become 122, 2 frames are 2.5 and become 3; 1160 ms at 25 fps are
    exactly 29 frames and [loop] adds 28. *)
Example rounding_at_ties :
  frames (changeFps 30 (setFrames 98 initial)) = 122 /\
  frames (changeFps 30 (setFrames 2 initial)) = 3 /\
  advance 25 1160 = 28.
Proof. vm_compute. now repeat split. Qed.

(** C4. Frame-rate change preserves wall-clock position: from frame [f]
    at rate [A], [changeFps B] sets the rate to [B] and the position to
    [Math.round((f / A) * B)], the seconds and the product being binary64
    values.  For non-negative [f] with [f * B <= 2^50] the result is a
    nearest integer to the exact [f * B / A]: the exact rounding with ties
    up, or, only when [f * B / A] lies exactly halfway between two
    integers, possibly the integer below. *)
Theorem changeFps_preserves_time (st : State) (newFps : Z) :
  let f := frames st in
  let A := fps st in
  let st' := changeFps newFps st in
  fps st' = newFps /\
  frames st' = Math_round (mul64 (div64 (inject_Z f) (inject_Z A)) (inject_Z newFps)) /\
  (0 <= f -> 0 < A <= 2 ^ 50 -> 0 < newFps -> f * newFps <= 2 ^ 50 ->
   2 * Z.abs (frames st' * A - f * newFps) <= A /\
   (frames st' = (2 * f * newFps + A) / (2 * A) \/
    (2 * f * newFps + A) mod (2 * A) = 0 /\
    frames st' = (2 * f * newFps + A) / (2 * A) - 1)).
Proof.
  intros f A st'.
  assert (Hk : frames st'
               = Math_round (mul64 (div64 (inject_Z f) (inject_Z A)) (inject_Z newFps)))
    by reflexivity.
  split; [reflexivity |]. split; [exact Hk |].
  intros Hf HA HB Hfb.
  pose proof (round_scaled_product f A newFps Hf HA HB Hfb) as Hr.
  cbv zeta in Hr. rewrite <- Hk in Hr.
  pose proof (Z.div_mod (2 * f * newFps + A) (2 * A) ltac:(lia)) as Hdm.
  pose proof (Z.mod_pos_bound (2 * f * newFps + A) (2 * A) ltac:(lia)) as Hb.
  split; [| exact Hr].
  destruct Hr as [Hr | [Hz Hr]]; rewrite Hr; lia.
Qed.

Lemma changeFps_preserves_time_witness :
  let st := setFrames 98 initial in
  2 * Z.abs (frames (changeFps 30 st) * 24 - 98 * 30) <= 24 /\
  (frames (changeFps 30 st) = (2 * 98 * 30 + 24) / (2 * 24) \/
   (2 * 98 * 30 + 24) mod (2 * 24) = 0 /\
   frames (changeFps 30 st) = (2 * 98 * 30 + 24) / (2 * 24) - 1).
Proof.
  apply (changeFps_preserves_time (setFrames 98 initial) 30).
  - cbn. lia.
  - cbn. split; [lia | vm_compute; discriminate].
  - lia.
  - vm_compute. discriminate.
Defined.

End Clock.

(** ** The marker ledger and the export text *)

Module Ledger.

Import JSString JSNumber Codec JSArray App Reference.
Local Open Scope Z_scope.

Section SortByKey.
Context {A : Type} (key : A -> Z).

Let cmp (a b : A) : Z := key a - key b.

Lemma insert_perm (x : A) (l : list A) : Permutation (x :: l) (insert cmp x l).
Proof.
  induction l as [| y l IH]; cbn [insert]; [reflexivity |].
  destruct (cmp x y <=? 0); [reflexivity |].
  rewrite perm_swap. now apply perm_skip.
Qed.

Lemma sort_perm (l : list A) : Permutation l (sort cmp l).
Proof.
  induction l as [| x l IH]; cbn [sort]; [reflexivity |].
  rewrite <- insert_perm. now apply perm_skip.
Qed.

Lemma insert_sorted (x : A) (l : list A) :
  StronglySorted (fun a b => key a <= key b) l ->
  StronglySorted (fun a b => key a <= key b) (insert cmp x l).
Proof.
  induction 1 as [| y l Hs IH Hy]; cbn [insert].
  - repeat constructor.
  - destruct (Z.leb_spec (cmp x y) 0) as [Hc | Hc]; unfold cmp in Hc.
    + constructor; [now constructor |].
      constructor; [lia |].
      rewrite Forall_forall in *. intros z Hz. specialize (Hy z Hz). cbn in Hy. lia.
    + constructor; [exact IH |].
      rewrite Forall_forall in *. intros z Hz.
      apply (Permutation_in _ (Permutation_sym (insert_perm x l))) in Hz.
      destruct Hz as [<- | Hz]; [lia | now apply Hy].
Qed.

Lemma sort_sorted (l : list A) : StronglySorted (fun a b => key a <= key b) (sort cmp l).
Proof.
  induction l as [| x l IH]; cbn [sort]; [constructor | now apply insert_sorted].
Qed.

(** Stability: the elements with a given key come out in the order they
    came in. *)
Lemma insert_stable (v : Z) (x : A) (l : list A) :
  filter (fun a => key a =? v) (insert cmp x l)
  = filter (fun a => key a =? v) (x :: l).
Proof.
  induction l as [| y l IH]; cbn [insert]; [reflexivity |].
  destruct (Z.leb_spec (cmp x y) 0) as [Hc | Hc]; [reflexivity |].
  unfold cmp in Hc. cbn [filter] in *. rewrite IH.
  destruct (Z.eqb_spec (key x) v), (Z.eqb_spec (key y) v); try reflexivity. lia.
Qed.

Lemma sort_stable (v : Z) (l : list A) :
  filter (fun a => key a =? v) (sort cmp l) = filter (fun a => key a =? v) l.
Proof.
  induction l as [| x l IH]; cbn [sort]; [reflexivity |].
  rewrite insert_stable. cbn [filter]. now rewrite IH.
Qed.

End SortByKey.

(** C6. Listing order: in mode "created" the markers are returned as
    they are; in mode "timecode" the result is a rearrangement of the
    markers, ascending in [frames], in which the markers at any one frame
    keep their insertion order.  For frames 120, 0, 120 with ids 1, 2, 3
    the timecode order is 2, 1, 3. *)
Theorem listing_order (ms : list Marker.t) :
  ordered created ms = ms /\
  Permutation ms (ordered timecode ms) /\
  StronglySorted frames_le (ordered timecode ms) /\
  (forall v, filter (at_frame v) (ordered timecode ms) = filter (at_frame v) ms) /\
  map Marker.id
    (ordered timecode [Marker.mk 1 120 "a"; Marker.mk 2 0 "b"; Marker.mk 3 120 "c"])
  = [2; 1; 3].
Proof.
  split; [reflexivity |].
  split; [apply (sort_perm Marker.frames) |].
  split; [apply (sort_sorted Marker.frames) |].
  split; [intros v; apply (sort_stable Marker.frames) | reflexivity].
Qed.


(** *** Export text *)

Local Open Scope string_scope.

Lemma mapi_from_spec (fps : Z) (n : nat) (ms : list Marker.t) :
  mapi_from (Z.of_nat n) (markerLine fps) ms
  = map (fun pm => spec_line fps (fst pm) (snd pm))
        (combine (seq (S n) (List.length ms)) ms).
Proof.
  revert n. induction ms as [| m ms IH]; intros n; [reflexivity |].
  cbn [mapi_from List.length seq combine map fst snd]. f_equal.
  - unfold markerLine, spec_line. now replace (Z.of_nat n + 1)%Z with (Z.of_nat (S n)) by lia.
  - replace (Z.of_nat n + 1)%Z with (Z.of_nat (S n)) by lia. apply IH.
Qed.

Lemma trimEnd_no_trailing_ws (s : string) : ends_with_ws (trimEnd s) = false.
Proof.
  induction s as [| c s IH]; [reflexivity |]. cbn [trimEnd].
  destruct (trimEnd s) as [| c' t] eqn:E.
  - destruct (is_ws c) eqn:Ec; [reflexivity |]. unfold ends_with_ws. cbn. exact Ec.
  - unfold ends_with_ws in *. cbn [String.length] in *.
    change (String.get (S (String.length t)) (String c (String c' t)))
      with (String.get (String.length t) (String c' t)). exact IH.
Qed.

(** C7. Plain-text export format: the text is the lines of the ordered
    markers joined by a newline; the line of the marker at 1-based
    position [i] is ["#"], [i] zero-padded to width 2, [" ["], the
    timecode of its frame, ["] "] and its trimmed comment, with trailing
    white space removed.  At 24 fps, a marker captured at frame 120 and
    commented "intro", then one captured at frame 0 and commented "start",
    export in timecode order as the two lines
    [#01 [00:00:00:00] start] and [#02 [00:00:05:00] intro]. *)
Theorem plain_text_export :
  (forall st,
     buildMarkersText st
     = join (String "010" "") (spec_lines (fps st) (sortedMarkers st)) /\
     Forall (fun line => ends_with_ws line = false)
       (spec_lines (fps st) (sortedMarkers st))) /\
  let st :=
    run [(0, ConfirmTc 0 0 5 0); (1, Capture); (2, TypeComment "intro"); (3, SaveComment);
         (4, ConfirmTc 0 0 0 0); (5, Capture); (6, TypeComment "start"); (7, SaveComment)]
      initial in
  fps st = 24%Z /\ sortMode st = timecode /\
  markers st = [Marker.mk 1 120 "intro"; Marker.mk 2 0 "start"] /\
  buildMarkersText st
  = "#01 [00:00:00:00] start" ++ String "010" "#02 [00:00:05:00] intro".
Proof.
  split.
  - intros st. split.
    + unfold buildMarkersText, mapi, spec_lines, sortedMarkers.
      now rewrite (mapi_from_spec (fps st) 0).
    + unfold spec_lines. apply Forall_forall. intros line Hin.
      apply in_map_iff in Hin. destruct Hin as (pm & <- & _).
      apply trimEnd_no_trailing_ws.
  - vm_compute. now repeat split.
Qed.

(** *** Marker ids *)

Local Close Scope string_scope.
Local Open Scope Z_scope.

Lemma zrange_snoc (lo : Z) (n : nat) :
  zrange lo (S n) = zrange lo n ++ [lo + Z.of_nat n].
Proof. unfold zrange. now rewrite seq_S, map_app. Qed.

Lemma zrange_app (lo : Z) (n m : nat) :
  zrange lo n ++ zrange (lo + Z.of_nat n) m = zrange lo (n + m).
Proof.
  induction m as [| m IH].
  - now rewrite app_nil_r, Nat.add_0_r.
  - rewrite Nat.add_succ_r, !zrange_snoc, app_assoc, IH.
    do 2 f_equal. lia.
Qed.

Lemma zrange_NoDup (lo : Z) (n : nat) : NoDup (zrange lo n).
Proof.
  unfold zrange. apply Finite.Injective_map_NoDup; [| apply seq_NoDup].
  intros i j H. lia.
Qed.

Lemma captures_ids (positions : list Z) (st : State) :
  ids (captures positions st)
  = ids st ++ zrange (nextMarkerId st) (List.length positions) /\
  nextMarkerId (captures positions st)
  = nextMarkerId st + Z.of_nat (List.length positions).
Proof.
  induction positions as [| f fs IH] using rev_ind.
  - cbn. rewrite app_nil_r. split; [reflexivity | lia].
  - unfold captures in *. rewrite fold_left_app. cbn [fold_left].
    destruct IH as [IHi IHn].
    set (s := fold_left (fun s f => capture (setFrames f s)) fs st) in *.
    rewrite length_app. cbn [List.length]. rewrite Nat.add_1_r, zrange_snoc.
    split.
    + unfold ids in *. cbn. rewrite map_app, IHi, IHn. cbn. now rewrite app_assoc.
    + cbn. rewrite IHn. lia.
Qed.

Lemma step_counter (st : State) (ev : Z * Event) :
  nextMarkerId (step st ev)
  = nextMarkerId st + Z.of_nat (List.length (issued_by (snd ev) st)).
Proof.
  destruct ev as [now e]. unfold step.
  set (st' := handle now e st).
  assert (H : nextMarkerId st'
              = nextMarkerId st + Z.of_nat (List.length (issued_by e st))).
  { unfold st'. destruct e; cbn [handle issued_by List.length Z.of_nat];
      try (cbn; lia).
    - destruct (playing st); cbn; lia.
    - unfold saveComment. destruct (editing st); cbn; lia.
    - destruct (raf st); cbn; lia. }
  cbn [snd]. rewrite <- H.
  destruct (negb (Bool.eqb (playing st') (playing st)) || negb (fps st' =? fps st));
    [| reflexivity].
  unfold timerEffect. destruct (negb (playing st')); reflexivity.
Qed.

(** Along any trace of events, resets included, the ids handed out are
    consecutive from the counter's value, hence pairwise distinct. *)
Lemma issued_consecutive (tr : list (Z * Event)) (st : State) :
  issued tr st = zrange (nextMarkerId st) (List.length (issued tr st)).
Proof.
  revert st. induction tr as [| ev tr IH]; intros st; [reflexivity |].
  cbn [issued]. rewrite length_app, <- zrange_app, <- step_counter, <- IH.
  f_equal. destruct ev as [now e]. destruct e; try reflexivity.
  cbn. f_equal. lia.
Qed.

Lemma issued_NoDup (tr : list (Z * Event)) (st : State) : NoDup (issued tr st).
Proof. rewrite issued_consecutive. apply zrange_NoDup. Qed.

(** C8. Monotonic ids survive clear: from a fresh ledger, [N] captures get
    the ids [1..N]; [reset] empties the ledger and leaves the counter at
    [N+1]; [M] further captures get [N+1..N+M]; no id is issued twice. *)
Theorem ids_survive_clear (positions1 positions2 : list Z) :
  let N := List.length positions1 in
  let M := List.length positions2 in
  let s1 := captures positions1 initial in
  let s2 := reset s1 in
  let s3 := captures positions2 s2 in
  ids s1 = zrange 1 N /\
  markers s2 = [] /\
  nextMarkerId s2 = 1 + Z.of_nat N /\
  ids s3 = zrange (1 + Z.of_nat N) M /\
  NoDup (ids s1 ++ ids s3).
Proof.
  intros N M s1 s2 s3.
  destruct (captures_ids positions1 initial) as [H1 H1n].
  destruct (captures_ids positions2 s2) as [H3 _].
  fold s1 in H1, H1n. fold s3 in H3.
  assert (H2 : markers s2 = []) by reflexivity.
  assert (H2n : nextMarkerId s2 = 1 + Z.of_nat N) by exact H1n.
  assert (H2i : ids s2 = []) by reflexivity.
  rewrite H2i, H2n in H3. change (ids initial) with (@nil Z) in H1.
  rewrite app_nil_l in H1, H3. change (nextMarkerId initial) with 1 in H1. fold N in H1. fold M in H3.
  repeat split; try assumption.
  rewrite H1, H3, zrange_app. apply zrange_NoDup.
Qed.

(** *** Empty-collection guard *)

(** C9. Empty-collection guard: with no markers, every export and summary
    trigger leaves the state as it is and produces exactly one effect, an
    alert; no text is built, no file is written or shared, nothing is
    printed or copied and no request is sent. *)
Theorem empty_guard (t : Trigger) (env : Env) (st : State) :
  markers st = [] ->
  exists title message, trigger t env st = (st, [Alert title message]).
Proof.
  intros Hm. destruct t; cbn [trigger];
    unfold exportMarkers, exportMarkersPdf, copyMarkersToClipboard,
      onPressExport, generateSummary;
    rewrite Hm; cbn [List.length Nat.eqb]; eexists; eexists; reflexivity.
Qed.

Lemma empty_guard_witness :
  exists title message,
    trigger GenerateSummary
      (mkEnv ios (Some "k") "file:///docs/" "markers_24fps.txt" "file:///tmp/p.pdf"
         true "now" TXT NetworkError)%string
      initial
    = (initial, [Alert title message]).
Proof.
  apply (empty_guard GenerateSummary _ initial). reflexivity.
Defined.

End Ledger.

(** ** More on the timecode helpers *)

Module CodecMore.

Import Float64 Float64Facts JSString JSNumber Codec CodecFacts RoundTrip App Picker.
Local Open Scope Z_scope.
Local Open Scope string_scope.

Lemma of_Z_inj (a b : Z) : of_Z a = of_Z b -> a = b.
Proof. unfold of_Z, inject_Z. intros H. now injection H. Qed.

Lemma pad2_inj (a b : Z) :
  0 <= a <= 2 ^ 53 -> 0 <= b <= 2 ^ 53 -> pad2 a = pad2 b -> a = b.
Proof.
  intros Ha Hb E. apply of_Z_inj.
  rewrite <- (Number_pad2 a Ha), <- (Number_pad2 b Hb). now rewrite E.
Qed.

Lemma pickedTimecode_inj (h m s f h' m' s' f' : Z) :
  0 <= h <= 2 ^ 53 -> 0 <= m <= 2 ^ 53 -> 0 <= s <= 2 ^ 53 -> 0 <= f <= 2 ^ 53 ->
  0 <= h' <= 2 ^ 53 -> 0 <= m' <= 2 ^ 53 -> 0 <= s' <= 2 ^ 53 -> 0 <= f' <= 2 ^ 53 ->
  pickedTimecode h m s f = pickedTimecode h' m' s' f' ->
  h = h' /\ m = m' /\ s = s' /\ f = f'.
Proof.
  intros Hh Hm Hs Hf Hh' Hm' Hs' Hf' E. apply (f_equal (split ":")) in E.
  unfold pickedTimecode in E. rewrite !split_fields in E by lia.
  injection E as E1 E2 E3 E4. repeat split; apply pad2_inj; assumption.
Qed.

(** The encoder writes the quotient and remainders of the position: the
    fields are in range and determine the position. *)
Lemma framesToTimecode_picked (f fps : Z) :
  0 <= f < 2 ^ 52 -> 0 < fps < 2 ^ 52 ->
  exists hh mm ss ff,
    framesToTimecode f fps = pickedTimecode hh mm ss ff /\
    0 <= hh /\ 0 <= mm < 60 /\ 0 <= ss < 60 /\ 0 <= ff < fps /\
    f = ((hh * 60 + mm) * 60 + ss) * fps + ff.
Proof.
  intros Hf Hfps. rewrite framesToTimecode_fields by assumption.
  set (ts := f / fps). set (tm := ts / 60).
  pose proof (Z.div_mod f fps ltac:(lia)) as E1.
  pose proof (Z.div_mod ts 60 ltac:(lia)) as E2.
  pose proof (Z.div_mod tm 60 ltac:(lia)) as E3.
  pose proof (Z.mod_pos_bound f fps ltac:(lia)) as B1.
  pose proof (Z.mod_pos_bound ts 60 ltac:(lia)) as B2.
  pose proof (Z.mod_pos_bound tm 60 ltac:(lia)) as B3.
  fold ts in E1. fold tm in E2.
  assert (Hts : 0 <= ts) by (apply Z.div_pos; lia).
  assert (Htm : 0 <= tm) by (apply Z.div_pos; lia).
  assert (Hhh : 0 <= tm / 60) by (apply Z.div_pos; lia).
  exists (tm / 60), (tm mod 60), (ts mod 60), (f mod fps).
  split; [reflexivity |]. repeat split; lia.
Qed.

(** X1. The four fields of a timecode, in exact integer arithmetic. *)
Theorem framesToTimecode_exact (f fps : Z) :
  0 <= f < 2 ^ 52 -> 0 < fps < 2 ^ 52 ->
  exists hh mm ss ff,
    framesToTimecode f fps = pickedTimecode hh mm ss ff /\
    split ":" (framesToTimecode f fps) = [pad2 hh; pad2 mm; pad2 ss; pad2 ff] /\
    0 <= hh /\ 0 <= mm < 60 /\ 0 <= ss < 60 /\ 0 <= ff < fps /\
    f = ((hh * 60 + mm) * 60 + ss) * fps + ff.
Proof.
  intros Hf Hfps.
  destruct (framesToTimecode_picked f fps Hf Hfps)
    as (hh & mm & ss & ff & E & Hhh & Hmm & Hss & Hff & En).
  exists hh, mm, ss, ff. rewrite E.
  split; [reflexivity |]. split; [apply split_fields; lia |].
  repeat split; lia.
Qed.

Lemma framesToTimecode_exact_witness :
  exists hh mm ss ff,
    framesToTimecode 2160001 24 = pickedTimecode hh mm ss ff /\
    split ":" (framesToTimecode 2160001 24) = [pad2 hh; pad2 mm; pad2 ss; pad2 ff] /\
    0 <= hh /\ 0 <= mm < 60 /\ 0 <= ss < 60 /\ 0 <= ff < 24 /\
    2160001 = ((hh * 60 + mm) * 60 + ss) * 24 + ff.
Proof.
  apply (framesToTimecode_exact 2160001 24); lia.
Defined.

(** X2. A position at or below zero is shown as the zero timecode. *)
Theorem framesToTimecode_clamps (frames fps : Z) :
  frames <= 0 -> 0 < fps < 2 ^ 52 ->
  framesToTimecode frames fps = "00:00:00:00".
Proof.
  intros Hf Hfps.
  assert (E : framesToTimecode frames fps = framesToTimecode 0 fps).
  { unfold framesToTimecode. now rewrite (Z.max_l 0 frames) by lia. }
  rewrite E, framesToTimecode_fields by lia.
  rewrite (Z.div_small 0 fps), (Z.mod_small 0 fps) by lia. reflexivity.
Qed.

Lemma framesToTimecode_clamps_witness :
  framesToTimecode (-120) 25 = "00:00:00:00".
Proof.
  apply (framesToTimecode_clamps (-120) 25); lia.
Defined.


Lemma frames_of_picked (h m s f fps : Z) :
  0 <= h <= 2 ^ 16 -> 0 <= m <= 2 ^ 16 -> 0 <= s <= 2 ^ 16 -> 0 <= f <= 2 ^ 16 ->
  0 < fps <= 2 ^ 16 ->
  frames_of (timecodeToFrames (pickedTimecode h m s f) fps)
  = (h * 3600 + m * 60 + s) * fps + f /\
  0 <= (h * 3600 + m * 60 + s) * fps + f < 2 ^ 52.
Proof.
  intros Hh Hm Hs Hf Hfps.
  assert (H16 : 2 ^ 16 = 65536) by reflexivity.
  assert (H52 : 2 ^ 52 = 4503599627370496) by reflexivity.
  assert (H53 : 2 ^ 53 = 9007199254740992) by reflexivity.
  assert (Hb : 0 <= (h * 3600 + m * 60 + s) * fps + f < 2 ^ 52) by nia.
  split; [| exact Hb]. unfold pickedTimecode.
  rewrite timecodeToFrames_fields by lia. apply Qfloor_Z.
Qed.

(** Decoding a picked timecode and encoding the result gives the picked
    timecode back exactly when minutes, seconds and frames are in range. *)
Lemma display_of_picked (h m s f fps : Z) :
  0 <= h <= 2 ^ 16 -> 0 <= m <= 2 ^ 16 -> 0 <= s <= 2 ^ 16 -> 0 <= f <= 2 ^ 16 ->
  0 < fps <= 2 ^ 16 ->
  framesToTimecode (frames_of (timecodeToFrames (pickedTimecode h m s f) fps)) fps
  = pickedTimecode h m s f
  <-> m < 60 /\ s < 60 /\ f < fps.
Proof.
  intros Hh Hm Hs Hf Hfps.
  destruct (frames_of_picked h m s f fps Hh Hm Hs Hf Hfps) as [-> Hn].
  set (n := (h * 3600 + m * 60 + s) * fps + f) in *.
  assert (H16 : 2 ^ 16 = 65536) by reflexivity.
  assert (H52 : 2 ^ 52 = 4503599627370496) by reflexivity.
  assert (H53 : 2 ^ 53 = 9007199254740992) by reflexivity.
  destruct (framesToTimecode_picked n fps Hn ltac:(lia))
    as (hh & mm & ss & ff & E & Hhh & Hmm & Hss & Hff & En).
  rewrite E. split.
  - intros Eq. apply pickedTimecode_inj in Eq; [lia | nia | lia | lia | lia | lia | lia | lia | lia].
  - intros (Hm60 & Hs60 & Hffps).
    assert (Efps : (hh * 60 + mm) * 60 + ss = h * 3600 + m * 60 + s /\ ff = f).
    { apply (Z.div_mod_unique fps); [left; lia | left; lia | unfold n in En; lia]. }
    destruct Efps as [E1 ->].
    assert (E60 : hh * 60 + mm = h * 60 + m /\ ss = s).
    { apply (Z.div_mod_unique 60); [left; lia | left; lia | lia]. }
    destruct E60 as [E2 ->].
    assert (E3 : hh = h /\ mm = m).
    { apply (Z.div_mod_unique 60); [left; lia | left; lia | lia]. }
    destruct E3 as [-> ->]. reflexivity.
Qed.

(** X3. After [confirmTcModal] the display shows the chosen start
    timecode if and only if minutes and seconds are below 60 and the
    frame field is below the frame rate. *)
Theorem confirmTcModal_display (h m s f : Z) (st : State) :
  0 <= h <= 2 ^ 16 -> 0 <= m <= 2 ^ 16 -> 0 <= s <= 2 ^ 16 -> 0 <= f <= 2 ^ 16 ->
  0 < fps st <= 2 ^ 16 ->
  let st' := confirmTcModal h m s f st in
  startTC st' = pickedTimecode h m s f /\
  frames st' = (h * 3600 + m * 60 + s) * fps st + f /\
  (framesToTimecode (frames st') (fps st') = startTC st'
   <-> m < 60 /\ s < 60 /\ f < fps st).
Proof.
  intros Hh Hm Hs Hf Hfps st'.
  split; [reflexivity |].
  split; [exact (proj1 (frames_of_picked h m s f (fps st) Hh Hm Hs Hf Hfps)) |].
  exact (display_of_picked h m s f (fps st) Hh Hm Hs Hf Hfps).
Qed.

Lemma confirmTcModal_display_witness :
  let st' := confirmTcModal 10 59 59 23 initial in
  startTC st' = pickedTimecode 10 59 59 23 /\
  frames st' = (10 * 3600 + 59 * 60 + 59) * 24 + 23 /\
  (framesToTimecode (frames st') (fps st') = startTC st'
   <-> 59 < 60 /\ 59 < 60 /\ 23 < 24).
Proof.
  apply (confirmTcModal_display 10 59 59 23 initial); cbn; lia.
Defined.

(** X4. [reset] stops the clock, cancels the callback, empties the ledger
    and the summary, and brings the display back to the start timecode
    (whose fields are in range). *)
Theorem reset_returns_to_start (h m s f now : Z) (st : State) :
  startTC st = pickedTimecode h m s f ->
  0 <= h <= 2 ^ 16 -> 0 <= m < 60 -> 0 <= s < 60 -> 0 <= f < fps st ->
  fps st <= 2 ^ 16 ->
  let st' := step st (now, Reset) in
  playing st' = false /\ raf st' = false /\ markers st' = [] /\ summary st' = "" /\
  fps st' = fps st /\ startTC st' = startTC st /\
  framesToTimecode (frames st') (fps st') = startTC st.
Proof.
  intros Htc Hh Hm Hs Hf Hfps st'.
  assert (H16 : 2 ^ 16 = 65536) by reflexivity.
  assert (Hp : playing st' = false /\ raf st' = false /\ markers st' = [] /\
               summary st' = "" /\ fps st' = fps st /\ startTC st' = startTC st /\
               frames st' = frames_of (timecodeToFrames (startTC st) (fps st))).
  { unfold st', step, handle.
    rewrite Z.eqb_refl. cbn [negb orb].
    destruct (playing st); cbn; now repeat split. }
  destruct Hp as (H1 & H2 & H3 & H4 & H5 & H6 & H7).
  repeat (split; [assumption |]).
  rewrite H7, H5, Htc.
  apply display_of_picked; lia.
Qed.

Lemma reset_returns_to_start_witness :
  let st' := step (confirmTcModal 1 2 3 4 initial) (77, Reset) in
  playing st' = false /\ raf st' = false /\ markers st' = [] /\ summary st' = "" /\
  fps st' = 24 /\ startTC st' = startTC (confirmTcModal 1 2 3 4 initial) /\
  framesToTimecode (frames st') (fps st') = startTC (confirmTcModal 1 2 3 4 initial).
Proof.
  apply (reset_returns_to_start 1 2 3 4 77 (confirmTcModal 1 2 3 4 initial));
    try reflexivity; cbn; lia.
Defined.

(** X5. [openTcModal] puts the wheels back on the values that
    [confirmTcModal] stored in the start timecode. *)
Theorem openTcModal_restores (h m s f : Z) (st : State) (p : TcPicker) :
  0 <= h <= 2 ^ 53 -> 0 <= m <= 2 ^ 53 -> 0 <= s <= 2 ^ 53 -> 0 <= f <= 2 ^ 53 ->
  openTcModal (startTC (confirmTcModal h m s f st)) p
  = mkPicker (of_Z h) (of_Z m) (of_Z s) (of_Z f) true.
Proof.
  intros Hh Hm Hs Hf. unfold openTcModal.
  change (startTC (confirmTcModal h m s f st))
    with (pad2 h ++ ":" ++ pad2 m ++ ":" ++ pad2 s ++ ":" ++ pad2 f).
  rewrite split_fields by lia. cbn [map].
  rewrite !Number_pad2 by lia. reflexivity.
Qed.

Lemma openTcModal_restores_witness :
  openTcModal (startTC (confirmTcModal 23 59 59 29 initial))
    (mkPicker (of_Z 1) (of_Z 0) (of_Z 0) (of_Z 0) false)
  = mkPicker (of_Z 23) (of_Z 59) (of_Z 59) (of_Z 29) true.
Proof.
  apply (openTcModal_restores 23 59 59 29 initial); lia.
Defined.

End CodecMore.

(** ** More on the clock *)

Module ClockMore.

Import Float64 Float64Facts JSString JSNumber Codec CodecFacts ClockArith.
Import App Reference Clock Picker Traces.
Local Open Scope Z_scope.

Lemma rne_nonneg (x : Q) : (0 <= x)%Q -> 0 <= rne x.
Proof.
  intros Hx. pose proof (Qfloor_resp_le 0 x Hx) as Hf. change (Qfloor 0) with 0 in Hf.
  unfold rne. destruct (Qcompare _ _); [destruct (Z.even _) | |]; lia.
Qed.

Lemma round_pos_nonneg (q : Q) : (0 <= q)%Q -> (0 <= round_pos q)%Q.
Proof.
  intros Hq. unfold round_pos. rewrite Qred_correct.
  apply Qmult_le_0_compat; [| apply Qlt_le_weak, two_pow_pos].
  change 0%Q with (inject_Z 0). rewrite <- Zle_Qle. apply rne_nonneg.
  apply Qmult_le_0_compat; [assumption | apply Qlt_le_weak, two_pow_pos].
Qed.

Lemma round64_nonneg (q : Q) : (0 <= q)%Q -> (0 <= round64 q)%Q.
Proof.
  intros Hq. unfold round64.
  assert (Hr : (0 <= Qred q)%Q) by (rewrite Qred_correct; assumption).
  destruct (Qred q) as [n d] eqn:E. cbn [Qnum].
  destruct n as [| p | p].
  - apply Qle_refl.
  - apply round_pos_nonneg. exact Hr.
  - exfalso. unfold Qle in Hr. cbn in Hr. lia.
Qed.

Lemma Qfloor_nonneg (q : Q) : (0 <= q)%Q -> 0 <= Qfloor q.
Proof. intros H. apply (Qfloor_resp_le 0 q H). Qed.

Lemma inject_Z_nonneg (z : Z) : 0 <= z -> (0 <= inject_Z z)%Q.
Proof. intros H. change 0%Q with (inject_Z 0). now rewrite <- Zle_Qle. Qed.

Lemma div64_nonneg (a b : Z) : 0 <= a -> 0 < b -> (0 <= div64 (inject_Z a) (inject_Z b))%Q.
Proof.
  intros Ha Hb. apply round64_nonneg. apply Qle_shift_div_l.
  - apply inject_Z_pos. assumption.
  - rewrite Qmult_0_l. now apply inject_Z_nonneg.
Qed.

Lemma advance_nonneg (fps elapsed : Z) : 0 < fps -> 0 <= elapsed -> 0 <= advance fps elapsed.
Proof.
  intros Hf He. unfold advance, Math_floor. apply Qfloor_nonneg.
  apply round64_nonneg. apply Qmult_le_0_compat.
  - change 1000%Q with (inject_Z 1000). apply div64_nonneg; lia.
  - apply inject_Z_nonneg. lia.
Qed.

Lemma changeFps_nonneg (f a b : Z) :
  0 <= f -> 0 < a -> 0 < b -> 0 <= secondsToFrames (framesToSeconds f a) b.
Proof.
  intros Hf Ha Hb. unfold secondsToFrames, framesToSeconds, Math_round.
  apply Qfloor_nonneg.
  assert (H : (0 <= mul64 (div64 (inject_Z f) (inject_Z a)) (inject_Z b))%Q).
  { apply round64_nonneg. apply Qmult_le_0_compat.
    - now apply div64_nonneg.
    - apply inject_Z_nonneg. lia. }
  lra.
Qed.

Lemma advance_0 (fps : Z) : advance fps 0 = 0.
Proof.
  unfold advance, Math_floor, mul64, div64.
  rewrite (round64_0 (inject_Z 0 / 1000)) by reflexivity.
  rewrite (round64_0 (0 * inject_Z fps)) by ring. reflexivity.
Qed.

(** X6. [adjust] never leaves a negative position and touches nothing
    but the position.  From a non-negative position, stepping forward and
    then back by the same amount returns to the same state; stepping back
    and then forward does so only when the position was at least
    [deltaSeconds * fps], otherwise it lands on [deltaSeconds * fps]. *)
Theorem adjust_there_and_back (d : Z) (st : State) :
  0 <= frames st -> 0 <= d * fps st ->
  0 <= frames (adjust (- d) st) /\
  adjust (- d) (adjust d st) = st /\
  (d * fps st <= frames st -> adjust d (adjust (- d) st) = st) /\
  (frames st < d * fps st -> frames (adjust d (adjust (- d) st)) = d * fps st).
Proof.
  intros Hf Hd. destruct st as [fps0 tc f0 pl ms ed cm so su ls rf sm bf nx].
  unfold adjust, setFrames. cbn in *.
  split; [lia |]. split; [f_equal; lia |]. split; intros H; [f_equal |]; lia.
Qed.

Lemma adjust_there_and_back_witness :
  0 <= frames (adjust (- 5) (setFrames 50 initial)) /\
  adjust (- 5) (adjust 5 (setFrames 50 initial)) = setFrames 50 initial /\
  (5 * 24 <= 50 -> adjust 5 (adjust (- 5) (setFrames 50 initial)) = setFrames 50 initial) /\
  (50 < 5 * 24 -> frames (adjust 5 (adjust (- 5) (setFrames 50 initial))) = 5 * 24).
Proof.
  apply (adjust_there_and_back 5 (setFrames 50 initial)); cbn; lia.
Defined.

Lemma step_frame_idle (st : State) (t : Z) :
  raf st = false -> step st (t, AnimationFrame) = st.
Proof.
  intros H. unfold step, handle. rewrite H.
  rewrite Z.eqb_refl. destruct (playing st); reflexivity.
Qed.

Lemma step_frame_running (st : State) (t : Z) :
  raf st = true -> step st (t, AnimationFrame) = loop t st.
Proof.
  intros H. unfold step, handle. rewrite H.
  change (playing (loop t st)) with (playing st).
  change (fps (loop t st)) with (fps st).
  rewrite Z.eqb_refl. destruct (playing st); reflexivity.
Qed.

Lemma run_frames_running (ts : list Z) (st : State) :
  raf st = true -> run (frameEvents ts) st = loops ts st.
Proof.
  revert st. induction ts as [| t ts IH]; intros st H; [reflexivity |].
  cbn [frameEvents map]. unfold run, loops in *. cbn [fold_left].
  rewrite step_frame_running by assumption. apply IH. reflexivity.
Qed.

Lemma run_frames_idle (ts : list Z) (st : State) :
  raf st = false -> run (frameEvents ts) st = st.
Proof.
  revert st. induction ts as [| t ts IH]; intros st H; [reflexivity |].
  cbn [frameEvents map]. unfold run in *. cbn [fold_left].
  rewrite step_frame_idle by assumption. now apply IH.
Qed.


Lemma play_started (t1 : Z) (st : State) :
  raf st = playing st ->
  let s1 := step st (t1, Play) in
  raf s1 = true /\ playing s1 = true /\ baseFrames s1 = frames st /\
  startMs s1 = t1 /\ fps s1 = fps st.
Proof.
  intros Hinv. unfold step, handle, play. cbn.
  rewrite Z.eqb_refl. destruct (playing st) eqn:Ep; cbn; rewrite ?Hinv; now repeat split.
Qed.

(** X8. [play] continues from the current position: pressed at [t1],
    in a state whose callback is scheduled exactly when it is playing,
    the position after callbacks at [ts] and then [T] is the position at
    the press plus the frames of [T - t1]; a callback at the very instant
    of the press leaves the position where it was. *)
Theorem play_continues (t1 T : Z) (ts : list Z) (st : State) :
  raf st = playing st ->
  let final := run ((t1, Play) :: frameEvents (ts ++ [T])) st in
  playing final = true /\
  frames final = frames st + advance (fps st) (T - t1) /\
  frames (run [(t1, Play); (t1, AnimationFrame)] st) = frames st.
Proof.
  intros Hinv final.
  set (s1 := step st (t1, Play)).
  assert (H1 : raf s1 = true /\ playing s1 = true /\ baseFrames s1 = frames st /\
               startMs s1 = t1 /\ fps s1 = fps st).
  { unfold s1, step, handle, play. cbn.
    rewrite Z.eqb_refl. destruct (playing st) eqn:Ep; cbn; rewrite ?Hinv; now repeat split. }
  destruct H1 as (Hr & Hp & Hb & Hm & Hf).
  assert (Hfin : final = loops (ts ++ [T]) s1).
  { unfold final. change (run ((t1, Play) :: frameEvents (ts ++ [T])) st)
      with (run (frameEvents (ts ++ [T])) s1). now apply run_frames_running. }
  split; [| split].
  - rewrite Hfin. clear Hfin.
    assert (G : forall l s, playing (loops l s) = playing s).
    { induction l as [| a l IH]; intros s; [reflexivity | apply (IH (loop a s))]. }
    now rewrite G.
  - rewrite Hfin, loops_last, Hb, Hm, Hf. reflexivity.
  - change (run [(t1, Play); (t1, AnimationFrame)] st) with (step s1 (t1, AnimationFrame)).
    rewrite step_frame_running by assumption.
    rewrite loop_frames, Hb, Hm, Z.sub_diag, advance_0. lia.
Qed.

Lemma play_continues_witness :
  let final := run ((40, Play) :: frameEvents ([55; 70] ++ [1040])) initial in
  playing final = true /\
  frames final = frames initial + advance (fps initial) (1040 - 40) /\
  frames (run [(40, Play); (40, AnimationFrame)] initial) = frames initial.
Proof.
  apply (play_continues 40 1040 [55; 70] initial). reflexivity.
Defined.


Lemma changeFps_frames_integral (newFps : Z) (st : State) :
  0 <= frames st -> 0 < fps st <= 2 ^ 50 -> 0 < newFps ->
  frames st * newFps <= 2 ^ 50 ->
  (frames st * newFps) mod fps st = 0 ->
  frames (changeFps newFps st) = frames st * newFps / fps st /\
  frames (changeFps newFps st) * fps st = frames st * newFps.
Proof.
  intros Hf HA HB Hb Hdiv.
  set (f := frames st) in *. set (A := fps st) in *.
  assert (Hk : frames (changeFps newFps st)
               = Math_round (mul64 (div64 (inject_Z f) (inject_Z A)) (inject_Z newFps)))
    by reflexivity.
  pose proof (round_scaled_product f A newFps Hf HA HB Hb) as Hr.
  cbv zeta in Hr. rewrite <- Hk in Hr.
  apply Z.div_exact in Hdiv; [| lia].
  set (q := f * newFps / A) in *.
  assert (Hq : (2 * f * newFps + A) / (2 * A) = q /\ (2 * f * newFps + A) mod (2 * A) = A).
  { split; symmetry.
    - apply (Z.div_unique_pos _ _ q A); lia.
    - apply (Z.mod_unique_pos _ _ q A); lia. }
  destruct Hq as [Hq Hm]. rewrite Hq, Hm in Hr.
  destruct Hr as [Hr | [Hz _]]; [| lia].
  split; [exact Hr | rewrite Hr; lia].
Qed.

(** X9. When the position converts to a whole number of frames at the
    new rate ([fps] divides [frames * newFps]) the conversion is exact; in
    particular whole seconds stay whole seconds. *)
Theorem changeFps_exact_when_integral (newFps : Z) (st : State) :
  0 <= frames st -> 0 < fps st <= 2 ^ 50 -> 0 < newFps ->
  frames st * newFps <= 2 ^ 50 ->
  (frames st * newFps) mod fps st = 0 ->
  frames (changeFps newFps st) = frames st * newFps / fps st /\
  frames (changeFps newFps st) * fps st = frames st * newFps.
Proof. exact (changeFps_frames_integral newFps st). Qed.

Lemma changeFps_exact_when_integral_witness :
  frames (changeFps 30 (setFrames 86400 initial)) = 86400 * 30 / 24 /\
  frames (changeFps 30 (setFrames 86400 initial)) * 24 = 86400 * 30.
Proof.
  apply (changeFps_exact_when_integral 30 (setFrames 86400 initial));
    cbn; try lia; try reflexivity.
Defined.

(** X10. Choosing the frame rate that is already set changes nothing. *)
Theorem changeFps_same_rate (st : State) :
  0 <= frames st -> 0 < fps st <= 2 ^ 50 -> frames st * fps st <= 2 ^ 50 ->
  changeFps (fps st) st = st.
Proof.
  intros Hf HA Hb.
  assert (Hdiv : (frames st * fps st) mod fps st = 0) by (apply Z.mod_mul; lia).
  destruct (changeFps_frames_integral (fps st) st Hf HA (proj1 HA) Hb Hdiv) as [Hk _].
  rewrite Z.div_mul in Hk by lia.
  destruct st as [fps0 tc f0 pl ms ed cm so su ls rf sm bf nx].
  unfold changeFps, setFps, setFrames in *. cbn in *. now rewrite Hk.
Qed.

Lemma changeFps_same_rate_witness :
  changeFps (fps initial) initial = initial.
Proof.
  apply (changeFps_same_rate initial);
    vm_compute; repeat split; try reflexivity; discriminate.
Defined.


(** X11. The wheel always reports an index between [0] and [count - 1],
    wherever the scroll stopped; and after the wheel has scrolled itself
    to a value, reading the offset back gives that value (brought into
    range). *)
Theorem wheel_snaps (value itemHeight count : Z) :
  0 < itemHeight -> 1 <= count -> count * itemHeight <= 2 ^ 53 ->
  (forall raw, 0 <= wheelIndex raw itemHeight count <= count - 1) /\
  wheelIndex (inject_Z (wheelOffset value itemHeight count)) itemHeight count
  = Z.max 0 (Z.min (count - 1) value).
Proof.
  intros Hh Hc Hb. split; [intros raw; unfold wheelIndex; lia |].
  unfold wheelIndex, wheelOffset.
  set (c := Z.max 0 (Z.min (count - 1) value)).
  assert (Hc0 : 0 <= c <= count - 1) by (unfold c; lia).
  assert (Hc53 : Z.abs c <= 2 ^ 53) by nia.
  assert (E : (inject_Z (c * itemHeight) / inject_Z itemHeight == inject_Z c)%Q).
  { rewrite inject_Z_mult. field. pose proof (inject_Z_pos itemHeight Hh). lra. }
  unfold div64. rewrite (round64_comp _ _ E), round64_Z by assumption.
  assert (Hr : Math_round (inject_Z c) = c).
  { unfold Math_round. apply Qfloor_between.
    - lra.
    - rewrite inject_Z_plus. change (inject_Z 1) with 1%Q. lra. }
  rewrite Hr. lia.
Qed.

Lemma wheel_snaps_witness :
  (forall raw, 0 <= wheelIndex raw 46 60 <= 60 - 1) /\
  wheelIndex (inject_Z (wheelOffset 75 46 60)) 46 60 = Z.max 0 (Z.min (60 - 1) 75).
Proof.
  apply (wheel_snaps 75 46 60); [lia | lia | vm_compute; discriminate].
Defined.

(** *** What holds in every state the events can reach *)

Lemma run_invariant (P : State -> Prop) :
  (forall st ev, P st -> P (step st ev)) ->
  forall tr st, P st -> P (run tr st).
Proof.
  intros Hstep tr. induction tr as [| ev tr IH]; intros st H; [exact H |].
  apply (IH (step st ev)). now apply Hstep.
Qed.

Lemma step_scheduled (st : State) (ev : Z * Event) :
  raf st = playing st -> raf (step st ev) = playing (step st ev).
Proof.
  intros H. destruct ev as [now e]. unfold step.
  set (st' := handle now e st).
  destruct (negb (Bool.eqb (playing st') (playing st)) || negb (fps st' =? fps st)) eqn:E.
  - unfold timerEffect. destruct (playing st') eqn:Ep; cbn; now rewrite ?Ep.
  - apply orb_false_iff in E. destruct E as [E1 _].
    apply negb_false_iff, eqb_prop in E1.
    unfold st' in *. clear st'.
    destruct e; cbn in *; try congruence.
    + destruct (playing st) eqn:Ep; cbn in *; congruence.
    + unfold saveComment in *. destruct (editing st); cbn in *; congruence.
    + destruct (raf st) eqn:Er; cbn in *; congruence.
Qed.

(** X12. In every state reachable from the initial one, whatever the
    events and their times, the loop callback is scheduled exactly while
    the clock is playing. *)
Theorem callback_scheduled_iff_playing (tr : list (Z * Event)) :
  raf (run tr initial) = playing (run tr initial).
Proof.
  apply (run_invariant (fun st => raf st = playing st)); [| reflexivity].
  intros st ev. apply step_scheduled.
Qed.


Lemma run_app (tr1 tr2 : list (Z * Event)) (st : State) :
  run (tr1 ++ tr2) st = run tr2 (run tr1 st).
Proof. unfold run. apply fold_left_app. Qed.

(** X23. Time spent stopped is not counted: play at [t1], a callback at
    [a], stop, any callbacks while stopped, play again at [t2] and a
    callback at [b] leave the position at the start position plus the
    frames of [a - t1] plus the frames of [b - t2]. *)
Theorem pause_not_counted (t1 a s t2 b : Z) (idle : list Z) (st : State) :
  raf st = playing st ->
  let tr := [(t1, Play); (a, AnimationFrame); (s, Stop)] ++ frameEvents idle
            ++ [(t2, Play); (b, AnimationFrame)] in
  frames (run tr st)
  = frames st + advance (fps st) (a - t1) + advance (fps st) (b - t2).
Proof.
  intros Hinv tr. unfold tr.
  set (s1 := run [(t1, Play); (a, AnimationFrame)] st).
  assert (H1 : frames s1 = frames st + advance (fps st) (a - t1) /\ fps s1 = fps st).
  { destruct (play_started t1 st Hinv) as (Hr & Hp & Hb & Hm & Hf).
    unfold s1. change (run [(t1, Play); (a, AnimationFrame)] st)
      with (step (step st (t1, Play)) (a, AnimationFrame)).
    rewrite step_frame_running by assumption.
    rewrite loop_frames, Hb, Hm. split; [now rewrite Hf | exact Hf]. }
  destruct H1 as [Hf1 Hfps1].
  set (s2 := step s1 (s, Stop)).
  assert (H2 : raf s2 = false /\ playing s2 = false /\ frames s2 = frames s1 /\ fps s2 = fps s1).
  { unfold s2, step, handle. rewrite Z.eqb_refl. destruct (playing s1); now repeat split. }
  destruct H2 as (Hr2 & Hp2 & Hf2 & Hfps2).
  change ([(t1, Play); (a, AnimationFrame); (s, Stop)] ++ frameEvents idle
          ++ [(t2, Play); (b, AnimationFrame)])
    with ([(t1, Play); (a, AnimationFrame)] ++ [(s, Stop)] ++ frameEvents idle
          ++ [(t2, Play); (b, AnimationFrame)]).
  rewrite !run_app. fold s1. change (run [(s, Stop)] s1) with s2.
  rewrite run_frames_idle by assumption.
  destruct (play_started t2 s2 ltac:(congruence)) as (Hr & Hp & Hb & Hm & Hf).
  change (run [(t2, Play); (b, AnimationFrame)] s2)
    with (step (step s2 (t2, Play)) (b, AnimationFrame)).
  rewrite step_frame_running by assumption.
  rewrite loop_frames, Hb, Hm, Hf, Hf2, Hfps2, Hf1, Hfps1. reflexivity.
Qed.

Lemma pause_not_counted_witness :
  let tr := [(0, Play); (1000, AnimationFrame); (1001, Stop)] ++ frameEvents [2000; 3000]
            ++ [(5000, Play); (5500, AnimationFrame)] in
  frames (run tr initial)
  = frames initial + advance (fps initial) (1000 - 0) + advance (fps initial) (5500 - 5000).
Proof.
  apply (pause_not_counted 0 1000 1001 5000 5500 [2000; 3000] initial). reflexivity.
Defined.

End ClockMore.

(** ** More on the ledger *)

Module LedgerMore.

Import JSString JSNumber Codec JSArray App Reference Ledger CodecMore ClockMore Picker Traces.
Local Open Scope Z_scope.

Lemma sorted_snoc (l : list Z) (x : Z) :
  StronglySorted Z.lt l -> Forall (fun i => i < x) l -> StronglySorted Z.lt (l ++ [x]).
Proof.
  induction 1 as [| a l Hs IH Ha]; intros Hx; cbn.
  - repeat constructor.
  - inversion Hx; subst. constructor; [now apply IH |].
    apply Forall_app. split; [assumption | now repeat constructor].
Qed.

Lemma sorted_lt_NoDup (l : list Z) : StronglySorted Z.lt l -> NoDup l.
Proof.
  induction 1 as [| a l Hs IH Ha]; constructor; [| assumption].
  intros Hin. rewrite Forall_forall in Ha. specialize (Ha a Hin). lia.
Qed.

Lemma ids_saveComment (st : State) : ids (saveComment st) = ids st.
Proof.
  unfold saveComment. destruct (editing st) as [e |]; [| reflexivity].
  unfold ids. cbn. rewrite map_map. apply map_ext. intros m.
  now destruct (Marker.id m =? Marker.id e).
Qed.

Lemma timerEffect_ledger (now : Z) (st : State) :
  markers (timerEffect now st) = markers st /\
  nextMarkerId (timerEffect now st) = nextMarkerId st.
Proof. unfold timerEffect. destruct (negb (playing st)); now split. Qed.

Lemma step_ledger (st : State) (ev : Z * Event) :
  markers (step st ev) = markers (handle (fst ev) (snd ev) st) /\
  nextMarkerId (step st ev) = nextMarkerId (handle (fst ev) (snd ev) st).
Proof.
  destruct ev as [now e]. unfold step. cbn [fst snd].
  destruct (negb _ || negb _); [apply timerEffect_ledger | now split].
Qed.

Lemma handle_ledger (now : Z) (e : Event) (st : State) :
  let st' := handle now e st in
  (ids st' = ids st /\ nextMarkerId st' = nextMarkerId st) \/
  (ids st' = [] /\ nextMarkerId st' = nextMarkerId st) \/
  (ids st' = ids st ++ [nextMarkerId st] /\ nextMarkerId st' = nextMarkerId st + 1).
Proof.
  destruct e; cbn [handle]; try (left; now split).
  - right; left. now split.
  - destruct (playing st); left; now split.
  - right; right. unfold ids. cbn. rewrite map_app. now split.
  - left. split; [apply ids_saveComment |].
    unfold saveComment. now destruct (editing st).
  - destruct (raf st); left; now split.
Qed.

Lemma step_ledger_ok (st : State) (ev : Z * Event) :
  ledger_ok st -> 1 <= nextMarkerId st ->
  ledger_ok (step st ev) /\ 1 <= nextMarkerId (step st ev).
Proof.
  intros [Hs Hb] H1. destruct (step_ledger st ev) as [Em En].
  unfold ledger_ok, ids. rewrite Em, En. fold (ids (handle (fst ev) (snd ev) st)).
  destruct (handle_ledger (fst ev) (snd ev) st) as [[Ei Ec] | [[Ei Ec] | [Ei Ec]]];
    rewrite Ei, Ec.
  - repeat split; assumption.
  - repeat split; [constructor | constructor | assumption].
  - repeat split; [| | lia].
    + apply sorted_snoc; [assumption |].
      eapply Forall_impl; [| exact Hb]. cbn. intros; lia.
    + apply Forall_app. split.
      * eapply Forall_impl; [| exact Hb]. cbn. intros; lia.
      * repeat constructor; lia.
Qed.

(** X13. In every state reachable from the initial one the marker ids
    are strictly increasing in ledger order, lie between 1 and the
    counter, and are therefore pairwise distinct, whatever captures,
    comment edits and resets happened. *)
Theorem ids_strictly_increasing (tr : list (Z * Event)) :
  let st := run tr initial in
  StronglySorted Z.lt (ids st) /\
  Forall (fun i => 1 <= i < nextMarkerId st) (ids st) /\
  NoDup (ids st).
Proof.
  intros st.
  assert (H : ledger_ok st /\ 1 <= nextMarkerId st).
  { unfold st.
    apply (run_invariant (fun s => ledger_ok s /\ 1 <= nextMarkerId s)).
    - intros s ev [Hl H1]. now apply step_ledger_ok.
    - split; [split; constructor | cbn; lia]. }
  destruct H as [[Hs Hb] _]. repeat split; try assumption.
  now apply sorted_lt_NoDup.
Qed.

(** X14. Capturing, typing a comment and saving stores the comment on
    the new marker and leaves every earlier marker as it was (their ids
    being below the counter, as in every reachable state). *)
Theorem capture_then_comment (text : string) (st : State) :
  Forall (fun i => i < nextMarkerId st) (ids st) ->
  let st' := saveComment (setComment text (capture st)) in
  markers st' = markers st ++ [Marker.mk (nextMarkerId st) (frames st) text] /\
  editing st' = None /\ comment st' = EmptyString /\
  nextMarkerId st' = nextMarkerId st + 1.
Proof.
  intros Hb st'. unfold st', saveComment, capture. cbn.
  repeat split. rewrite map_app. cbn. rewrite Z.eqb_refl. f_equal.
  unfold ids in Hb. rewrite Forall_map in Hb.
  induction (markers st) as [| m ms IH]; [reflexivity |].
  inversion Hb; subst. cbn.
  destruct (Z.eqb_spec (Marker.id m) (nextMarkerId st)) as [E | _]; [lia |].
  f_equal. now apply IH.
Qed.

Lemma capture_then_comment_witness :
  let st := capture (setFrames 48 initial) in
  let st' := saveComment (setComment "cut"%string (capture st)) in
  markers st' = markers st ++ [Marker.mk (nextMarkerId st) (frames st) "cut"%string] /\
  editing st' = None /\ comment st' = EmptyString /\
  nextMarkerId st' = nextMarkerId st + 1.
Proof.
  apply (capture_then_comment "cut"%string (capture (setFrames 48 initial))).
  repeat constructor.
Defined.

(** X24. Opening a marker of the ledger, typing a comment and saving
    replaces the comment of that marker and of no other, and moves no
    marker (ids being pairwise distinct, as in every reachable state). *)
Theorem edit_comment_in_place (l1 l2 : list Marker.t) (m : Marker.t) (text : string)
  (st : State) :
  markers st = l1 ++ m :: l2 -> NoDup (ids st) ->
  let st' := saveComment (setComment text (pressMarker m st)) in
  markers st' = l1 ++ Marker.with_comment text m :: l2 /\
  ids st' = ids st /\
  map Marker.frames (markers st') = map Marker.frames (markers st) /\
  editing st' = None.
Proof.
  intros Em Hnd st'.
  assert (Hm : markers st'
               = map (fun x => if Marker.id x =? Marker.id m
                               then Marker.with_comment text x else x) (markers st))
    by reflexivity.
  unfold ids in *. rewrite Hm, Em in *. clear Hm.
  rewrite map_app in Hnd. cbn [map] in Hnd.
  apply NoDup_remove_2 in Hnd.
  assert (Hout : forall l, ~ In (Marker.id m) (map Marker.id l) ->
                 map (fun x => if Marker.id x =? Marker.id m
                               then Marker.with_comment text x else x) l = l).
  { induction l as [| x l IH]; intros Hn; [reflexivity |]. cbn in *.
    destruct (Z.eqb_spec (Marker.id x) (Marker.id m)) as [E | _]; [tauto |].
    f_equal. apply IH. tauto. }
  rewrite map_app. cbn [map]. rewrite Z.eqb_refl.
  rewrite !Hout by (intros H; apply Hnd, in_or_app; tauto).
  repeat split.
  - rewrite !map_app. reflexivity.
  - rewrite !map_app. reflexivity.
Qed.

Lemma edit_comment_in_place_witness :
  let st := capture (capture initial) in
  let m := Marker.mk 1 86400 EmptyString in
  let st' := saveComment (setComment "note"%string (pressMarker m st)) in
  markers st' = [] ++ Marker.with_comment "note"%string m :: [Marker.mk 2 86400 EmptyString] /\
  ids st' = ids st /\
  map Marker.frames (markers st') = map Marker.frames (markers st) /\
  editing st' = None.
Proof.
  apply (edit_comment_in_place [] [Marker.mk 2 86400 EmptyString]
           (Marker.mk 1 86400 EmptyString) "note"%string (capture (capture initial))).
  - vm_compute. reflexivity.
  - vm_compute. repeat constructor; cbn; intuition discriminate.
Defined.

(** X15. When the markers were captured in chronological order, sorting
    by timecode changes nothing: both listing modes show the same
    sequence.  Sorting an already sorted listing again changes nothing
    either. *)
Theorem timecode_order_of_chronological (ms : list Marker.t) :
  (StronglySorted frames_le ms -> ordered timecode ms = ordered created ms) /\
  ordered timecode (ordered timecode ms) = ordered timecode ms.
Proof.
  assert (G : forall l, StronglySorted frames_le l -> ordered timecode l = l).
  { induction 1 as [| a l Hs IH Ha]; [reflexivity |].
    cbn [ordered sort] in *. rewrite IH.
    destruct l as [| b l]; [reflexivity |]. cbn [insert].
    inversion Ha; subst. unfold frames_le in *.
    destruct (Z.leb_spec (Marker.frames a - Marker.frames b) 0); [reflexivity | lia]. }
  split; [exact (G ms) |]. apply G. apply (sort_sorted Marker.frames).
Qed.

Lemma timecode_order_of_chronological_witness :
  ordered timecode [Marker.mk 1 0 "a"%string; Marker.mk 2 24 "b"%string; Marker.mk 3 24 "c"%string]
  = ordered created [Marker.mk 1 0 "a"%string; Marker.mk 2 24 "b"%string; Marker.mk 3 24 "c"%string].
Proof.
  apply (proj1 (timecode_order_of_chronological
           [Marker.mk 1 0 "a"%string; Marker.mk 2 24 "b"%string; Marker.mk 3 24 "c"%string])).
  unfold frames_le. repeat constructor; cbn; lia.
Defined.


(** *** Positions never go negative *)

Lemma validStart_frames (tc : string) (fps : Z) :
  validStart tc -> fps = 24 \/ fps = 25 \/ fps = 30 ->
  0 <= frames_of (timecodeToFrames tc fps).
Proof.
  intros (h & m & s & f & -> & Hh & Hm & Hs & Hf) Hfps.
  assert (H16 : 2 ^ 16 = 65536) by reflexivity.
  destruct (frames_of_picked h m s f fps) as [-> Hb]; lia.
Qed.

Lemma timerEffect_wellFormed (now : Z) (st : State) :
  wellFormed now st -> wellFormed now (timerEffect now st).
Proof.
  intros (Hf & Hb & Hs & Hfps & Htc & Hm). unfold timerEffect, wellFormed.
  destruct (negb (playing st)); cbn; repeat split; try assumption; try lia.
Qed.

Lemma handle_wellFormed (t now : Z) (e : Event) (st : State) :
  wellFormed t st -> t <= now -> allowed e -> wellFormed now (handle now e st).
Proof.
  intros (Hf & Hb & Hs & Hfps & Htc & Hm) Ht Ha.
  assert (Hs' : raf st = true -> startMs st <= now) by (intros H; specialize (Hs H); lia).
  unfold wellFormed.
  destruct e as [| | | d | v | h m s f | | text | | mode |]; cbn [handle]; cbn in Ha.
  - cbn. repeat split; try assumption; lia.
  - cbn. repeat split; try assumption. discriminate.
  - cbn. repeat split; try assumption; try discriminate; [| constructor].
    now apply validStart_frames.
  - cbn. repeat split; try assumption. lia.
  - destruct (playing st); [repeat split; assumption |].
    cbn. repeat split; try assumption. apply changeFps_nonneg; lia.
  - cbn. repeat split; try assumption.
    + apply validStart_frames; [| assumption].
      exists h, m, s, f. repeat split; lia.
    + exists h, m, s, f. repeat split; lia.
  - cbn. repeat split; try assumption.
    apply Forall_app. split; [assumption | now repeat constructor].
  - cbn. repeat split; assumption.
  - unfold saveComment. destruct (editing st) as [ed |]; [| repeat split; assumption].
    cbn. repeat split; try assumption.
    apply Forall_map. eapply Forall_impl; [| exact Hm].
    intros m H. now destruct (Marker.id m =? Marker.id ed).
  - cbn. repeat split; assumption.
  - destruct (raf st) eqn:Er; [| repeat split; try assumption; congruence].
    cbn. repeat split; try assumption.
    pose proof (advance_nonneg (fps st) (now - startMs st)) as Hadv.
    specialize (Hs' eq_refl). unfold advance in Hadv.
    assert (0 <= Math_floor (mul64 (div64 (inject_Z (now - startMs st)) 1000)
                                    (inject_Z (fps st)))) by (apply Hadv; lia).
    lia.
Qed.

Lemma step_wellFormed (t now : Z) (e : Event) (st : State) :
  wellFormed t st -> t <= now -> allowed e -> wellFormed now (step st (now, e)).
Proof.
  intros Hw Ht Ha. pose proof (handle_wellFormed t now e st Hw Ht Ha) as H.
  unfold step. destruct (negb _ || negb _); [now apply timerEffect_wellFormed | exact H].
Qed.

Lemma run_wellFormed (tr : list (Z * Event)) (t : Z) (st : State) :
  wellFormed t st -> timed t tr -> exists t', wellFormed t' (run tr st).
Proof.
  revert t st. induction tr as [| [now e] tr IH]; intros t st Hw Ht.
  - now exists t.
  - destruct Ht as (Hle & Ha & Htr).
    apply (IH now (step st (now, e))); [now apply (step_wellFormed t) | assumption].
Qed.

Lemma initial_wellFormed : wellFormed 0 initial.
Proof.
  unfold wellFormed.
  split; [vm_compute; discriminate |]. split; [vm_compute; discriminate |].
  split; [intros H; discriminate H |]. split; [left; reflexivity |].
  split; [| constructor].
  exists 1, 0, 0, 0. split; [vm_compute; reflexivity | lia].
Qed.

(** X16. From the initial state, under events the controls allow
    (picker values in range, frame rates 24, 25 or 30) delivered by a
    clock that does not run backwards, the position is never negative, no
    marker carries a negative position, the frame rate stays one of 24,
    25 and 30, and the start timecode stays one the picker can write. *)
Theorem position_never_negative (tr : list (Z * Event)) :
  timed 0 tr ->
  let st := run tr initial in
  0 <= frames st /\
  Forall (fun m => 0 <= Marker.frames m) (markers st) /\
  (fps st = 24 \/ fps st = 25 \/ fps st = 30) /\
  validStart (startTC st).
Proof.
  intros Ht st.
  destruct (run_wellFormed tr 0 initial initial_wellFormed Ht)
    as (t' & Hf & _ & _ & Hfps & Htc & Hm).
  now repeat split.
Qed.

Lemma position_never_negative_witness :
  let st := run [(5, ConfirmTc 0 0 0 3); (9, Play); (25, AnimationFrame);
                 (30, Adjust (-5)); (31, Capture); (40, Stop); (41, ChangeFps 30);
                 (50, Reset)] initial in
  0 <= frames st /\
  Forall (fun m => 0 <= Marker.frames m) (markers st) /\
  (fps st = 24 \/ fps st = 25 \/ fps st = 30) /\
  validStart (startTC st).
Proof.
  apply (position_never_negative
           [(5, ConfirmTc 0 0 0 3); (9, Play); (25, AnimationFrame);
            (30, Adjust (-5)); (31, Capture); (40, Stop); (41, ChangeFps 30);
            (50, Reset)]).
  cbn. repeat split; lia.
Defined.

End LedgerMore.

(** ** More on export and summary *)

Module ExportMore.

Import JSString JSNumber Codec JSArray App Reference Ledger FileName Markup.
Local Open Scope string_scope.

Lemma string_app_assoc (a b c : string) : (a ++ b) ++ c = a ++ (b ++ c).
Proof. induction a as [| x a IH]; cbn; [reflexivity | now rewrite IH]. Qed.

Lemma replaceAll_app (c : ascii) (r a b : string) :
  replaceAll c r (a ++ b) = replaceAll c r a ++ replaceAll c r b.
Proof.
  induction a as [| x a IH]; [reflexivity |]. cbn [append replaceAll].
  destruct (Ascii.eqb x c); rewrite IH; [| reflexivity].
  now rewrite string_app_assoc.
Qed.

Lemma esc_app (a b : string) : esc (a ++ b) = esc a ++ esc b.
Proof. unfold esc. now rewrite !replaceAll_app. Qed.

Lemma esc_cons (c : ascii) (s : string) :
  esc (String c s) = esc (String c "") ++ esc s.
Proof. exact (esc_app (String c "") s). Qed.

Lemma esc_char (c : ascii) :
  markup_free (esc (String c "")) = true /\
  (special c = false -> esc (String c "") = String c "") /\
  (forall r, unesc (esc (String c "") ++ r) = String c (unesc r)).
Proof.
  destruct c as [[] [] [] [] [] [] [] []];
    (split; [reflexivity | split; [intros H; try reflexivity; discriminate H | intros r; reflexivity]]).
Qed.


Lemma list_ascii_app (a b : string) :
  list_ascii_of_string (a ++ b) = (list_ascii_of_string a ++ list_ascii_of_string b)%list.
Proof. induction a as [| x a IH]; cbn; [reflexivity | now rewrite IH]. Qed.

Lemma markup_free_app (a b : string) :
  markup_free (a ++ b) = markup_free a && markup_free b.
Proof. unfold markup_free. now rewrite list_ascii_app, forallb_app. Qed.

Lemma esc_plain (s : string) : plain s = true -> esc s = s.
Proof.
  induction s as [| c s IH]; [reflexivity |]. unfold plain. cbn [list_ascii_of_string forallb].
  intros H. apply andb_true_iff in H. destruct H as [Hc Hs].
  apply negb_true_iff in Hc. rewrite esc_cons.
  rewrite (proj1 (proj2 (esc_char c)) Hc), (IH Hs). reflexivity.
Qed.

Lemma esc_no_markup (s : string) : markup_free (esc s) = true.
Proof.
  induction s as [| c s IH]; [reflexivity |].
  rewrite esc_cons, markup_free_app, IH, (proj1 (esc_char c)). reflexivity.
Qed.

(** X17. Escaped text contains no [<], [>], double quote or apostrophe,
    whatever the input; text without any of the five special characters
    passes through unchanged. *)
Theorem esc_markup_free (s : string) :
  markup_free (esc s) = true /\ (plain s = true -> esc s = s).
Proof.
  split; [apply esc_no_markup | apply esc_plain].
Qed.

Lemma esc_markup_free_witness :
  markup_free (esc "00:00:05:00") = true /\ esc "00:00:05:00" = "00:00:05:00".
Proof.
  split.
  - apply (esc_markup_free "00:00:05:00").
  - apply (esc_markup_free "00:00:05:00"). reflexivity.
Defined.

Lemma unesc_esc (s : string) : unesc (esc s) = s.
Proof.
  induction s as [| c s IH]; [reflexivity |].
  rewrite esc_cons, (proj2 (proj2 (esc_char c))), IH. reflexivity.
Qed.

(** X18. Escaping loses nothing: two texts with the same escaped form are
    the same text. *)
Theorem esc_injective (a b : string) : esc a = esc b -> a = b.
Proof.
  intros E. rewrite <- (unesc_esc a), <- (unesc_esc b). now rewrite E.
Qed.

Lemma esc_injective_witness : "a<b & c" = "a<b & c".
Proof. apply (esc_injective "a<b & c" "a<b & c"). reflexivity. Defined.

(** X19. The file-name modal and the iOS prompt resolve the same typed
    text to the same file name: the trimmed text with the extension, or
    the default name with the extension when the text is blank or only
    white space.  Cancelling gives the default name.  Once the modal has
    answered, a second press answers nothing. *)
Theorem file_name_resolution (draft defaultName : string) (e : Extension) (m0 : NameModal) :
  let opened := setNameDraft draft (askFileName defaultName e m0) in
  snd (confirmNameModal opened) = Some (promptOK (Some draft) defaultName e) /\
  snd (cancelNameModal opened) = Some (promptAnnulla defaultName e) /\
  promptOK None defaultName e = promptAnnulla defaultName e /\
  (trim draft = "" -> promptOK (Some draft) defaultName e = promptAnnulla defaultName e) /\
  (trim draft <> "" ->
   promptOK (Some draft) defaultName e = trim draft ++ "." ++ extName e) /\
  snd (confirmNameModal (fst (confirmNameModal opened))) = None /\
  snd (cancelNameModal (fst (confirmNameModal opened))) = None /\
  nameModalVisible (fst (confirmNameModal opened)) = false.
Proof.
  intros opened. unfold opened, confirmNameModal, cancelNameModal, promptOK,
    promptAnnulla, setNameDraft, askFileName.
  cbn [fst snd nameDraft nameDefault nameExt nameResolve nameModalVisible option_map].
  destruct (trim draft) as [| c r] eqn:E; cbn [String.length Nat.ltb Nat.leb].
  - repeat split; try reflexivity. intros H. congruence.
  - repeat split; try reflexivity. intros H. discriminate H.
Qed.

Lemma file_name_resolution_witness :
  promptOK (Some "   ") "markers_24fps" txt = promptAnnulla "markers_24fps" txt /\
  promptOK (Some " cut 1 ") "markers_24fps" txt = trim " cut 1 " ++ "." ++ extName txt.
Proof.
  pose proof (file_name_resolution "   " "markers_24fps" txt (mkName false "" "" txt false)) as H1.
  pose proof (file_name_resolution " cut 1 " "markers_24fps" txt (mkName false "" "" txt false)) as H2.
  cbv zeta in H1, H2.
  destruct H1 as (_ & _ & _ & H1 & _). destruct H2 as (_ & _ & _ & _ & H2 & _).
  split; [apply H1; reflexivity | apply H2; discriminate].
Defined.



Lemma truthy_nonempty (o : option string) (s : string) : truthy o = Some s -> s <> "".
Proof. destruct o as [[| c r] |]; cbn; intros H; inversion H. discriminate. Qed.

(** X21. A summary request is sent only when there are markers and a
    key is configured, and then exactly one, with that key; when it
    completes the summary shown is never empty and the loading flag is
    off.  Without a key nothing is sent and the state is untouched. *)
Theorem summary_request (env : Env) (st : State) :
  (forall key, markers st <> [] -> truthy (GEMINI_KEY env) = Some key ->
     exists prompt,
       snd (generateSummary env st) = [Fetch key prompt] /\
       summary (fst (generateSummary env st)) <> "" /\
       loadingSummary (fst (generateSummary env st)) = false) /\
  (truthy (GEMINI_KEY env) = None ->
     exists title message, generateSummary env st = (st, [Alert title message])) /\
  (forall key prompt, In (Fetch key prompt) (snd (generateSummary env st)) ->
     markers st <> [] /\ truthy (GEMINI_KEY env) = Some key).
Proof.
  unfold generateSummary.
  destruct (markers st) as [| m ms] eqn:Em; cbn [List.length Nat.eqb].
  - split; [intros key H; congruence |]. split.
    + intros _. now eexists; eexists.
    + intros key prompt [H | []]. discriminate H.
  - destruct (truthy (GEMINI_KEY env)) as [k |] eqn:Ek.
    + split; [| split].
      * intros key _ [= <-]. eexists. split; [reflexivity |]. split; [| reflexivity].
        cbn. destruct (fetchResult env) as [| cand err]; [discriminate |].
        destruct (truthy cand) eqn:Ec; [now apply (truthy_nonempty cand) |].
        destruct (truthy err) eqn:Ee; [now apply (truthy_nonempty err) | discriminate].
      * discriminate.
      * intros key prompt [H | []].
        apply (f_equal (fun e => match e with Fetch a _ => a | _ => k end)) in H.
        cbn beta iota in H. subst key. split; [discriminate | reflexivity].
    + split; [intros key _ H; discriminate H |]. split.
      * intros _. now eexists; eexists.
      * intros key prompt [H | []]. discriminate H.
Qed.

Lemma summary_request_witness :
  exists prompt,
    snd (generateSummary
           (mkEnv ios (Some "k") "d/" "f.txt" "p.pdf" true "now" TXT (Response None None))
           (capture initial))
    = [Fetch "k" prompt].
Proof.
  destruct (summary_request
              (mkEnv ios (Some "k") "d/" "f.txt" "p.pdf" true "now" TXT (Response None None))
              (capture initial)) as (H & _ & _).
  destruct (H "k") as (prompt & Hp & _); [discriminate | reflexivity |].
  exists prompt. exact Hp.
Defined.


(** *** The printed table *)

Lemma plain_app (a b : string) : plain (a ++ b) = plain a && plain b.
Proof. unfold plain. now rewrite list_ascii_app, forallb_app. Qed.

Lemma plain_digits (d : Decimal.uint) : plain (NilEmpty.string_of_uint d) = true.
Proof. induction d; cbn; try reflexivity; exact IHd. Qed.

Lemma plain_replicate (n : nat) : plain (replicate n "0") = true.
Proof. induction n; cbn; [reflexivity | exact IHn]. Qed.

Lemma plain_pad2 (z : Z) : plain (pad2 z) = true.
Proof.
  unfold pad2, padStart. rewrite plain_app, plain_replicate. cbn [andb].
  unfold toString. destruct (Z.to_int z) as [d | d]; cbn [NilEmpty.string_of_int].
  - apply plain_digits.
  - change (String "-" (NilEmpty.string_of_uint d))
      with ("-" ++ NilEmpty.string_of_uint d).
    rewrite plain_app, plain_digits. reflexivity.
Qed.

Lemma plain_timecode (frames fps : Z) : plain (framesToTimecode frames fps) = true.
Proof.
  unfold framesToTimecode. cbv zeta.
  rewrite !plain_app, !plain_pad2. reflexivity.
Qed.

Lemma ordered_length (mode : SortMode) (ms : list Marker.t) :
  List.length (ordered mode ms) = List.length ms.
Proof.
  destruct mode; [reflexivity |].
  symmetry. apply Permutation_length. apply (sort_perm Marker.frames).
Qed.

Lemma mapi_from_length {A B : Type} (f : A -> Z -> B) (l : list A) (i : Z) :
  List.length (mapi_from i f l) = List.length l.
Proof. revert i. induction l as [| x l IH]; intros i; cbn; [reflexivity | now rewrite IH]. Qed.

Lemma mapi_from_map {A B C : Type} (g : B -> C) (f : A -> Z -> B) (h : A -> C)
  (l : list A) (i : Z) :
  (forall x j, g (f x j) = h x) -> map g (mapi_from i f l) = map h l.
Proof.
  intros H. revert i. induction l as [| x l IH]; intros i; cbn; [reflexivity |].
  now rewrite H, IH.
Qed.

Lemma mapi_from_Forall {A B : Type} (P : B -> Prop) (f : A -> Z -> B) (l : list A) (i : Z) :
  (forall x j, P (f x j)) -> Forall P (mapi_from i f l).
Proof.
  intros H. revert i. induction l as [| x l IH]; intros i; cbn; constructor; auto.
Qed.

(** X22. Where printing is supported and there are markers, the printed
    table has one row per marker, states the marker count as its total,
    lists the timecodes in the selected order exactly as the plain-text
    export shows them (escaping leaves a timecode untouched), and no
    comment cell contains a raw [<], [>] or quote. *)
Theorem pdf_table (env : Env) (st : State) :
  markers st <> [] -> platformOS env <> web ->
  exists doc rest,
    snd (exportMarkersPdf env st) = PrintToFile doc :: rest /\
    doc_total doc = Z.of_nat (List.length (markers st)) /\
    List.length (doc_rows doc) = List.length (markers st) /\
    map row_tc (doc_rows doc)
    = map (fun m => framesToTimecode (Marker.frames m) (fps st)) (sortedMarkers st) /\
    Forall (fun r => markup_free (row_cmt r) = true) (doc_rows doc).
Proof.
  intros Hm Hp. unfold exportMarkersPdf.
  assert (Hn : (List.length (markers st) =? 0)%nat = false)
    by (destruct (markers st); [congruence | reflexivity]).
  rewrite Hn.
  destruct (platformOS env); [| | congruence]; cbn [snd];
    (eexists; eexists; split; [reflexivity |]; cbn [doc_total doc_rows];
     split; [now rewrite ordered_length |];
     split; [unfold mapi; now rewrite mapi_from_length, ordered_length |];
     split; [unfold mapi, sortedMarkers; apply mapi_from_map; intros x j; cbn;
             apply esc_plain, plain_timecode
            | unfold mapi; apply mapi_from_Forall; intros x j; cbn;
              apply esc_no_markup]).
Qed.

Lemma pdf_table_witness :
  exists doc rest,
    snd (exportMarkersPdf
           (mkEnv android None "d/" "f.pdf" "p.pdf" true "now" PDF NetworkError)
           (capture initial))
    = PrintToFile doc :: rest.
Proof.
  destruct (pdf_table
              (mkEnv android None "d/" "f.pdf" "p.pdf" true "now" PDF NetworkError)
              (capture initial)) as (doc & rest & H & _); [discriminate | discriminate |].
  exists doc, rest. exact H.
Defined.

End ExportMore.
